(** * prl_hpp_tsid: joint reordering, bounds validation, path splitting

    A shallow embedding of the algorithmic core of
    [prl_pinocchio/robot.py] (class [Robot]) and [prl_hpp/planner.py]
    (class [Planner]), and the properties of it that the design document
    states.

    Conventions.
    - Python lists are [list]; the non-negative subscript [l[i]] is
      [py_getitem], which raises [IndexError] out of range.
    - Python floats are modelled by the rationals [Q]; [1e-3] is [1 # 1000].
    - A Python exception is a constructor of [exn]; code that may raise
      lives in the [result] monad.
    - Calls into the HPP planning server are the constructors of [call];
      code that talks to the server is a [prog], a tree of such calls, run
      against an arbitrary server by [run]. *)

From Stdlib Require Import QArith Qabs Lqa.
From stdpp Require Import base list strings.

(** ** Python exceptions and the result monad *)

Inductive assertion : Type :=
| JointWayOutOfBounds (i : nat)   (* "Joint {i} way out of bounds : ..." *)
| NoGoalConfigurationFound.       (* "No goal configuration found" *)

Inductive exn : Type :=
| IndexError
| TypeError
| ValueError
| AttributeError
| AssertionError (a : assertion).

Inductive result (A : Type) : Type :=
| Ok (a : A)
| Err (e : exn).
Arguments Ok {A} a.
Arguments Err {A} e.

Global Instance result_ret : MRet result := λ A a, Ok a.
Global Instance result_bind : MBind result := λ A B f r,
  match r with
  | Ok a => f a
  | Err e => Err e
  end.

(** [l[i]] for a non-negative [i]. *)
Definition py_getitem {A} (l : list A) (i : nat) : result A :=
  match l !! i with
  | Some x => Ok x
  | None => Err IndexError
  end.

(** [l.index(x)]: the first position holding [x], [ValueError] if none. *)
Definition py_index `{EqDecision A} (x : A) (l : list A) : result nat :=
  match list_find (λ y, y = x) l with
  | Some (i, _) => Ok i
  | None => Err ValueError
  end.

(** The builtins [max(a, b)] and [min(a, b)]: the first argument is kept
    unless the second is strictly beyond it. *)
Definition Qltb (a b : Q) : bool := negb (Qle_bool b a).
Definition py_max (a b : Q) : Q := if Qltb a b then b else a.
Definition py_min (a b : Q) : Q := if Qltb b a then b else a.

(** ** robot.py *)

(** What [create_dof_lookup] and [get_meas_qvtau] read of a pinocchio
    model.  [names] and [joints] are pinocchio's parallel vectors; entry 0
    of [names] is the universe joint, which ROS does not know. *)
Record JointModel : Type := { nq : nat; nv : nat }.

Record Model : Type := {
  names : list string;
  joints : list JointModel;
  lowerPositionLimit : list Q;
  upperPositionLimit : list Q
}.

(** sensor_msgs/JointState *)
Record JointState : Type := {
  name : list string;
  position : list Q;
  velocity : list Q;
  effort : list Q
}.

Record Robot : Type := {
  model : Model;                (* self.pin_robot_wrapper.model *)
  _q_pin_to_ros : list nat;
  _q_ros_to_pin : list nat;
  _v_pin_to_ros : list nat;
  _v_ros_to_pin : list nat
}.

(** [list(model.names[1:])] *)
Definition get_joint_names (m : Model) : list string := drop 1 (names m).

(** [for i in range(joint.nq): joint_indexes.append(index); index += 1] *)
Fixpoint enumerate_joint (n index : nat) (joint_indexes : list nat)
  : list nat * nat :=
  match n with
  | O => (joint_indexes, index)
  | S n' => enumerate_joint n' (S index) (joint_indexes ++ [index])
  end.

(** "enumerate all the DoF and group them by joint": the loop over
    [pin_model.joints].  [dof] is [nq] in the first half of
    [create_dof_lookup] and [nv] in the second, which repeats the first
    line for line. *)
Fixpoint group_dofs (dof : JointModel → nat) (js : list JointModel)
    (index : nat) (x_pin_to_pin : list (list nat)) : list (list nat) :=
  match js with
  | [] => x_pin_to_pin
  | joint :: js' =>
      let '(joint_indexes, index') := enumerate_joint (dof joint) index [] in
      group_dofs dof js' index' (x_pin_to_pin ++ [joint_indexes])
  end.

(** "rearrange joints": the loop over [new_joint_list]. *)
Fixpoint rearrange_joints (pin_joint_names : list string)
    (x_pin_to_pin : list (list nat)) (new_joint_list : list string)
    (x_new_to_pin : list (list nat)) : result (list (list nat)) :=
  match new_joint_list with
  | [] => Ok x_new_to_pin
  | name :: rest =>
      pin_index ← py_index name pin_joint_names;
      indexes ← py_getitem x_pin_to_pin pin_index;
      rearrange_joints pin_joint_names x_pin_to_pin rest
        (x_new_to_pin ++ [indexes])
  end.

(** "Flatten the list of list into a simple list": repeated [extend]. *)
Fixpoint flatten (x_new_to_pin : list (list nat)) (res : list nat)
  : list nat :=
  match x_new_to_pin with
  | [] => res
  | indexes :: rest => flatten rest (res ++ indexes)
  end.

(** "Take the inverse of the bijection": the loop over
    [range(len(res_new_to_pin))]. *)
Fixpoint invert_lookup (res_new_to_pin : list nat) (range : list nat)
    (res_pin_to_new : list nat) : result (list nat) :=
  match range with
  | [] => Ok res_pin_to_new
  | pin_index :: rest =>
      new_index ← py_index pin_index res_new_to_pin;
      invert_lookup res_new_to_pin rest (res_pin_to_new ++ [new_index])
  end.

(** One half of [create_dof_lookup]; returns
    [(res_pin_to_new, res_new_to_pin)]. *)
Definition dof_lookup (dof : JointModel → nat) (m : Model)
    (new_joint_list : list string) : result (list nat * list nat) :=
  let pin_joint_names := get_joint_names m in
  let x_pin_to_pin := group_dofs dof (joints m) 0 [] in
  x_new_to_pin ← rearrange_joints pin_joint_names x_pin_to_pin
                   new_joint_list [];
  let res_new_to_pin := flatten x_new_to_pin [] in
  res_pin_to_new ← invert_lookup res_new_to_pin
                     (seq 0 (length res_new_to_pin)) [];
  Ok (res_pin_to_new, res_new_to_pin).

(** [Robot.create_dof_lookup]; returns
    [(res_q_pin_to_new, res_q_new_to_pin, res_v_pin_to_new, res_v_new_to_pin)]. *)
Definition create_dof_lookup (m : Model) (new_joint_list : list string)
  : result (list nat * list nat * list nat * list nat) :=
  '(res_q_pin_to_new, res_q_new_to_pin) ← dof_lookup nq m new_joint_list;
  '(res_v_pin_to_new, res_v_new_to_pin) ← dof_lookup nv m new_joint_list;
  Ok (res_q_pin_to_new, res_q_new_to_pin, res_v_pin_to_new, res_v_new_to_pin).

(** The tail of [Robot.__init__]: the tables are built from the joint
    names of the first JointState message. *)
Definition make_robot (m : Model) (first_msg : JointState) : result Robot :=
  '(q_pin_to_ros, q_ros_to_pin, v_pin_to_ros, v_ros_to_pin) ←
    create_dof_lookup m (name first_msg);
  Ok {| model := m;
        _q_pin_to_ros := q_pin_to_ros; _q_ros_to_pin := q_ros_to_pin;
        _v_pin_to_ros := v_pin_to_ros; _v_ros_to_pin := v_ros_to_pin |}.

(** The comprehension [[x[table[i]] for i in range(len(x))]]. *)
Fixpoint reorder_loop {A} (table : list nat) (x : list A) (range : list nat)
    (x_res : list A) : result (list A) :=
  match range with
  | [] => Ok x_res
  | i :: rest =>
      j ← py_getitem table i;
      xj ← py_getitem x j;
      reorder_loop table x rest (x_res ++ [xj])
  end.

Definition reorder {A} (table : list nat) (x : list A) : result (list A) :=
  reorder_loop table x (seq 0 (length x)) [].

(** [Robot._rearrange_ros_to_pin]; an omitted argument is [None]. *)
Definition _rearrange_ros_to_pin (r : Robot) (q v tau : option (list Q))
  : result (list (list Q)) :=
  let res : list (list Q) := [] in
  res ← match q with
        | Some q => q_res ← reorder (_q_pin_to_ros r) q; Ok (res ++ [q_res])
        | None => Ok res
        end;
  res ← match v with
        | Some v => v_res ← reorder (_v_pin_to_ros r) v; Ok (res ++ [v_res])
        | None => Ok res
        end;
  res ← match tau with
        | Some tau =>
            tau_res ← reorder (_v_pin_to_ros r) tau; Ok (res ++ [tau_res])
        | None => Ok res
        end;
  Ok res.

(** [self.pin_robot_wrapper.pin_model]: pinocchio's [RobotWrapper] keeps
    the model under [model], as every other line of robot.py reads it; it
    has no attribute [pin_model]. *)
Definition wrapper_pin_model : result Model := Err AttributeError.

(** The body of [for i, pos in enumerate(q)] in [get_meas_qvtau]; [q] is
    updated in place.  When the condition of the [assert] is false its
    message is built first, from [self.pin_robot_wrapper.pin_model.names[i+1]];
    only then would the assertion [JointWayOutOfBounds i] be raised. *)
Fixpoint clamp_loop (m : Model) (range : list nat) (q : list Q)
  : result (list Q) :=
  match range with
  | [] => Ok q
  | i :: rest =>
      pos ← py_getitem q i;
      lower ← py_getitem (lowerPositionLimit m) i;
      let pos := py_max pos lower in
      upper ← py_getitem (upperPositionLimit m) i;
      let pos := py_min pos upper in
      qi ← py_getitem q i;
      if Qltb (Qabs (pos - qi)) (1 # 1000)
      then clamp_loop m rest (<[i:=pos]> q)
      else
        pin_model ← wrapper_pin_model;
        joint_name ← py_getitem (names pin_model) (i + 1);
        Err (AssertionError (JointWayOutOfBounds i))
  end.

(** [Robot.get_meas_qvtau], given the last message of the observer. *)
Definition get_meas_qvtau (r : Robot) (joints_state : JointState)
    (raw : bool) : result (list Q * list Q * list Q) :=
  let q := position joints_state in
  let v := velocity joints_state in
  let tau := effort joints_state in
  res ← _rearrange_ros_to_pin r (Some q) (Some v) (Some tau);
  match res with
  | [q; v; tau] =>
      if negb raw
      then q ← clamp_loop (model r) (seq 0 (length q)) q; Ok (q, v, tau)
      else Ok (q, v, tau)
  | _ => Err ValueError          (* unpacking [q, v, tau = ...] *)
  end.

(** ** planner.py *)

Definition config : Type := list Q.

(** The calls [Planner] makes into the HPP server ([self.hpp_robot],
    the constraint graph [cg] and the problem solver [self.ps]), each
    with the type of its reply. *)
Inductive call : Type → Type :=
| shootRandomConfig : call config
| generateTargetConfig (edge : string) (q_ref q : config)
    : call (bool * config * Q)
| directPath (q1 q2 : config) (validate : bool) : call (bool * nat * string)
| erasePath (pathId : nat) : call unit
| appendDirectPath (pathId : nat) (q : config) (validate : bool) : call unit.

(** Code that talks to the server: it returns, raises, or makes a call and
    goes on with the reply. *)
Inductive prog (A : Type) : Type :=
| Ret (a : A)
| Raise (e : exn)
| Do {X : Type} (c : call X) (k : X → prog A).
Arguments Ret {A} a.
Arguments Raise {A} e.
Arguments Do {A X} c k.

Fixpoint prog_bind_fix {A B} (f : A → prog B) (p : prog A) : prog B :=
  match p with
  | Ret a => f a
  | Raise e => Raise e
  | Do c k => Do c (λ x, prog_bind_fix f (k x))
  end.

Global Instance prog_ret : MRet prog := λ A a, Ret a.
Global Instance prog_bind : MBind prog := λ A B f p, prog_bind_fix f p.

Definition lift {A} (r : result A) : prog A :=
  match r with
  | Ok a => Ret a
  | Err e => Raise e
  end.

(** A server is any state [W] with a reply to every call; [run] plays a
    program against it and keeps the log of the calls made.  A server
    always replies: an exception raised inside HPP is outside the model. *)
Definition server (W : Type) : Type := ∀ X, call X → W → X * W.

Inductive entry : Type :=
| Entry {X : Type} (c : call X) (reply : X).

Fixpoint run {W A} (h : server W) (p : prog A) (w : W)
  : result A * W * list entry :=
  match p with
  | Ret a => (Ok a, w, [])
  | Raise e => (Err e, w, [])
  | Do c k =>
      let '(x, w') := h _ c w in
      let '(r, w'', log) := run h (k x) w' in
      (r, w'', Entry c x :: log)
  end.

(** A random draw, and an accepted pair: the direct path between pre-grasp
    and grasp was found valid. *)
Definition is_draw (e : entry) : bool :=
  match e with
  | Entry shootRandomConfig _ => true
  | _ => false
  end.

Definition is_accept (e : entry) : bool :=
  match e with
  | Entry (directPath _ _ _) (res_path, _, _) => res_path
  | _ => false
  end.

Definition draws (log : list entry) : nat := length (filter is_draw log).
Definition accepts (log : list entry) : nat := length (filter is_accept log).

(** "Generate pair goal configuration (pre-graps, grasp)": the body of
    [for _ in range(100)] in [make_gripper_approach], [n] rounds to go. *)
Fixpoint sample_goals_loop (gripperFullname : string) (q_init : config)
    (n : nat) (q_goals : list (config * config))
  : prog (list (config * config)) :=
  match n with
  | O => Ret q_goals
  | S n' =>
      q ← Do shootRandomConfig Ret;
      '(res_pre, q_pre, error_pre) ←
        Do (generateTargetConfig
              (gripperFullname +:+ " > target/handle | f_01") q_init q) Ret;
      '(res_grasp, q_grasp, error_grasp) ←
        Do (generateTargetConfig
              (gripperFullname +:+ " > target/handle | f_12") q_pre q_pre) Ret;
      if res_pre && res_grasp then
        '(res_path, pathId, error_path) ← Do (directPath q_pre q_grasp true) Ret;
        if (res_path : bool) then
          Do (erasePath pathId) Ret;;
          sample_goals_loop gripperFullname q_init n'
            (q_goals ++ [(q_pre, q_grasp)])
        else sample_goals_loop gripperFullname q_init n' q_goals
      else sample_goals_loop gripperFullname q_init n' q_goals
  end.

(** Lines 159-171 of [make_gripper_approach]: the sampling loop and the
    assertion that follows it. *)
Definition generate_goal_configurations (gripperFullname : string)
    (q_init : config) : prog (list (config * config)) :=
  q_goals ← sample_goals_loop gripperFullname q_init 100 [];
  if bool_decide (0 < length q_goals) then Ret q_goals
  else Raise (AssertionError NoGoalConfigurationFound).

(** [q[-n:]] *)
Definition py_suffix {A} (n : nat) (q : list A) : list A :=
  drop (length q - n) q.

(** [o + 1] where [o] may be [None]. *)
Definition py_add1 (o : option nat) : result nat :=
  match o with
  | Some i => Ok (i + 1)
  | None => Err TypeError
  end.

(** [Planner._create_path] *)
Fixpoint append_direct_paths (pathId : nat) (qs : list config) : prog unit :=
  match qs with
  | [] => Ret ()
  | q :: rest =>
      Do (appendDirectPath pathId q false) Ret;;
      append_direct_paths pathId rest
  end.

Definition _create_path (waypoints : list config) : prog nat :=
  w0 ← lift (py_getitem waypoints 0);
  w1 ← lift (py_getitem waypoints 1);
  '(_, pathId, _) ← Do (directPath w0 w1 false) Ret;
  append_direct_paths pathId (drop 2 waypoints);;
  Ret pathId.

(** "Split the path": the loop [for i, q in enumerate(wps)] of
    [make_pick_and_place].  [compare_configurations] comes from
    [prl_hpp.tools.utils]; it is a parameter here, and it may raise. *)
Fixpoint scan_waypoints (compare_configurations : config → config → result bool)
    (pose_pick pose_place : config) (wps : list config) (i : nat)
    (pick_index place_index : option nat)
  : result (option nat * option nat) :=
  match wps with
  | [] => Ok (pick_index, place_index)
  | q :: rest =>
      let target_pos := py_suffix 7 q in
      is_pick ← compare_configurations target_pos pose_pick;
      let pick_index := if (is_pick : bool) then Some i else pick_index in
      is_place ← compare_configurations target_pos pose_place;
      let place_index :=
        if negb is_place then Some (i + 1) else place_index in
      scan_waypoints compare_configurations pose_pick pose_place rest (S i)
        pick_index place_index
  end.

(** The slice [l[start:stop]] with non-negative bounds; an omitted bound
    is [None]. *)
Definition py_slice {A} (l : list A) (start stop : option nat) : list A :=
  drop (default 0 start)
       (match stop with Some b => take b l | None => l end).

(** Lines 309-323 of [make_pick_and_place]: from the waypoints of the
    solved path to the ids of the three sub paths. *)
Definition split_path (compare_configurations : config → config → result bool)
    (pose_pick pose_place : config) (wps : list config)
  : prog (nat * nat * nat) :=
  '(pick_index, place_index) ←
    lift (scan_waypoints compare_configurations pose_pick pose_place wps 0
            None None);
  stop ← lift (py_add1 pick_index);
  pick_pathId ← _create_path (py_slice wps None (Some stop));
  stop ← lift (py_add1 place_index);
  place_pathId ← _create_path (py_slice wps pick_index (Some stop));
  home_pathId ← _create_path (py_slice wps place_index None);
  Ret (pick_pathId, place_pathId, home_pathId).

(** Modelled from the spec: [compare_configurations] of
    [prl_hpp/tools/utils.py], which is not part of the sources at hand.
    Section 4.4: element-wise absolute-difference comparison, true iff every
    pair of corresponding scalars differs by no more than the tolerance; a
    shape error, rendered by [ValueError], if the lengths differ. *)
Definition compare_configurations_spec (threshold : Q) (a b : config)
  : result bool :=
  if bool_decide (length a = length b)
  then Ok (forallb (λ ab, Qle_bool (Qabs (ab.1 - ab.2)) threshold) (zip a b))
  else Err ValueError.

(** * Vocabulary of the properties, and scenario data *)

(** ** Index tables that are inverse to each other *)

(** [g[f[i]] == i] for every index [i] of [f], inside the common range. *)
Definition inverse_on (f g : list nat) : Prop :=
  length f = length g ∧
  ∀ i, i < length f → ∃ j, f !! i = Some j ∧ j < length f ∧ g !! j = Some i.

(** [g[f[i]] == i] for every index [i] of [0, N), with [f[i]] in [0, N). *)
Definition bijection_on (N : nat) (f g : list nat) : Prop :=
  ∀ i, i < N → ∃ j, f !! i = Some j ∧ j < N ∧ g !! j = Some i.

(** The number of scalars of the joints of a layout, the universe joint
    left out as [get_joint_names] leaves it out. *)
Definition layout_scalars (dof : JointModel → nat) (m : Model) : nat :=
  sum_list (dof <$> drop 1 (joints m)).

(** The number of scalars in the blocks that the joint names can reach:
    those of the first [len(pin_joint_names)] entries of [joints]. *)
Definition scalar_count (dof : JointModel → nat) (m : Model) : nat :=
  sum_list (take (length (get_joint_names m)) (dof <$> joints m)).

(** The blocks of consecutive indices [group_dofs] hands out. *)
Fixpoint dof_blocks (sizes : list nat) (index : nat) : list (list nat) :=
  match sizes with
  | [] => []
  | n :: rest => seq index n :: dof_blocks rest (index + n)
  end.

(** The block [rearrange_joints] picks for a joint name. *)
Definition block_of (pin_joint_names : list string)
    (x_pin_to_pin : list (list nat)) (name : string) : list nat :=
  match py_index name pin_joint_names with
  | Ok i => default [] (x_pin_to_pin !! i)
  | Err _ => []
  end.

(** Scenario data: joints A (one configuration scalar) and B (two), behind
    the universe joint that every pinocchio model starts with; ROS lists B
    before A. *)
Definition scenario1_model (universe : JointModel) : Model :=
  {| names := ["universe"; "A"; "B"]%string;
     joints := [universe; {| nq := 1; nv := 1 |}; {| nq := 2; nv := 2 |}];
     lowerPositionLimit := []; upperPositionLimit := [] |}.

Definition scenario1_external : list string := ["B"; "A"]%string.

(** A spherical joint S (4 configuration scalars, 3 velocity scalars) and a
    revolute joint R. *)
Definition spherical_model : Model :=
  {| names := ["universe"; "S"; "R"]%string;
     joints := [{| nq := 1; nv := 1 |}; {| nq := 4; nv := 3 |};
                {| nq := 1; nv := 1 |}];
     lowerPositionLimit := []; upperPositionLimit := [] |}.

(** ** Bounds validation *)

Global Instance Q_inhabited : Inhabited Q := populate 0%Q.

(** What the two lines [pos = max(pos, lower); pos = min(pos, upper)] make
    of a position. *)
Definition clamp (lower upper pos : Q) : Q :=
  py_min (py_max pos lower) upper.

(** The clamped value of scalar [i] and the distance the clamp moved it. *)
Definition clamped (m : Model) (i : nat) (pos : Q) : Q :=
  clamp (lowerPositionLimit m !!! i) (upperPositionLimit m !!! i) pos.

Definition deviation (m : Model) (i : nat) (pos : Q) : Q :=
  Qabs (clamped m i pos - pos).

(** The loop of [get_meas_qvtau] as a function of the scalars still to
    visit, [i] being the index of the first of them. *)
Fixpoint clamp_from (m : Model) (i : nat) (todo : list Q) : result (list Q) :=
  match todo with
  | [] => Ok []
  | pos :: rest =>
      if Qltb (deviation m i pos) (1 # 1000)
      then rest' ← clamp_from m (S i) rest; Ok (clamped m i pos :: rest')
      else Err AttributeError
  end.

(** Scenario data: one joint with bounds [0, 1]; ROS and pinocchio agree
    on the order. *)
Definition scenario2_robot : Robot :=
  {| model := {| names := ["universe"; "J"]%string;
                 joints := [{| nq := 1; nv := 1 |}; {| nq := 1; nv := 1 |}];
                 lowerPositionLimit := [0%Q]; upperPositionLimit := [1%Q] |};
     _q_pin_to_ros := [0]; _q_ros_to_pin := [0];
     _v_pin_to_ros := [0]; _v_ros_to_pin := [0] |}.

Definition scenario2_reading (pos : Q) : JointState :=
  {| name := ["J"%string]; position := [pos];
     velocity := [0%Q]; effort := [0%Q] |}.

(** ** The goal sampler *)

(** The number of draws made once [target] pairs have been accepted;
    [accepted] counts the pairs accepted so far. *)
Fixpoint draws_after (target : nat) (log : list entry) (accepted : nat)
  : nat :=
  match log with
  | [] => 0
  | e :: rest =>
      (if is_draw e && bool_decide (target ≤ accepted) then 1 else 0)
      + draws_after target rest (if is_accept e then S accepted else accepted)
  end.

(** Two servers without state: on the first every projection succeeds and
    no direct path is valid, on the second every candidate pair passes. *)
Definition direct_path_fails : server unit := λ X c w,
  match c in call X return X * unit with
  | shootRandomConfig => ([], w)
  | generateTargetConfig _ _ q => ((true, q, 0%Q), w)
  | directPath _ _ _ => ((false, 0, EmptyString), w)
  | erasePath _ => (tt, w)
  | appendDirectPath _ _ _ => (tt, w)
  end.

Definition always_accepts : server unit := λ X c w,
  match c in call X return X * unit with
  | shootRandomConfig => ([], w)
  | generateTargetConfig _ _ q => ((true, q, 0%Q), w)
  | directPath _ _ _ => ((true, 0, EmptyString), w)
  | erasePath _ => (tt, w)
  | appendDirectPath _ _ _ => (tt, w)
  end.

(** Name the reply of the next call the program makes to server [h]. *)
Ltac next_call h :=
  match goal with
  | |- context [h ?X ?c ?w] =>
      let x := fresh "x" in
      let w' := fresh "w" in
      destruct (h X c w) as [x w']
  end.

(** ** Path splitting *)

(** The target-pose slice of waypoint [q] matches, respectively does not
    match, [pose]: [compare_configurations] returns [True], respectively
    [False]. *)
Definition matches (compare_configurations : config → config → result bool)
    (pose q : config) : Prop :=
  compare_configurations (py_suffix 7 q) pose = Ok true.

Definition mismatches (compare_configurations : config → config → result bool)
    (pose q : config) : Prop :=
  compare_configurations (py_suffix 7 q) pose = Ok false.

(** [i] is the last index of [wps] whose waypoint satisfies [P]. *)
Definition last_index (P : config → Prop) (wps : list config) (i : nat)
  : Prop :=
  (∃ q, wps !! i = Some q ∧ P q) ∧
  ∀ j q, i < j → wps !! j = Some q → ¬ P q.

(** A server that keeps the paths it is asked to build: [directPath]
    stores a new path and returns its index, [appendDirectPath] extends the
    path named. *)
Definition path_store : server (list (list config)) := λ X c w,
  match c in call X return X * list (list config) with
  | shootRandomConfig => ([], w)
  | generateTargetConfig _ _ q => ((false, q, 0%Q), w)
  | directPath q1 q2 _ => ((true, length w, EmptyString), w ++ [[q1; q2]])
  | erasePath _ => (tt, w)
  | appendDirectPath pathId q _ => (tt, alter (λ path, path ++ [q]) pathId w)
  end.

(** Scenario data: five waypoints, the first two at the pick pose
    [1, 1, 1], two in transit, the last at the place pose [2, 2, 2]. *)
Definition scenario3_pick : config := [1; 1; 1]%Q.
Definition scenario3_place : config := [2; 2; 2]%Q.
Definition scenario3_transit : config := [3 # 2; 3 # 2; 3 # 2]%Q.
Definition scenario3_wps : list config :=
  [scenario3_pick; scenario3_pick; scenario3_transit; scenario3_transit;
   scenario3_place].

(** [slice] holds the waypoints of [wps] at the indices [first .. last],
    as far as they exist. *)
Definition holds_range (slice wps : list config) (first last : nat) : Prop :=
  ∀ k, slice !! k
       = if decide (first + k ≤ last) then wps !! (first + k) else None.

(** [compare_configurations] returns on every waypoint. *)
Definition comparable (compare_configurations : config → config → result bool)
    (pose_pick pose_place : config) (wps : list config) : Prop :=
  ∀ q, q ∈ wps →
       (∃ b, compare_configurations (py_suffix 7 q) pose_pick = Ok b) ∧
       (∃ b, compare_configurations (py_suffix 7 q) pose_place = Ok b).

(** * More of robot.py, planner.py and example_ur5_impedance.py *)

(** [Robot.get_meas_q] *)
Definition get_meas_q (r : Robot) (joints_state : JointState) (raw : bool)
  : result (list Q) :=
  '(q, _, _) ← get_meas_qvtau r joints_state raw;
  Ok q.

(** What [Planner] keeps between calls, as far as [lock_joints] and the
    two limit setters go. *)
Record Planner : Type := {
  robot : Robot;
  velocity_scale : Q;
  acceleration_scale : Q;
  lockJointConstraints : list string
}.

Definition set_velocity_limit (p : Planner) (scale : Q) : Planner :=
  {| robot := robot p; velocity_scale := scale;
     acceleration_scale := acceleration_scale p;
     lockJointConstraints := lockJointConstraints p |}.

Definition set_acceleration_limit (p : Planner) (scale : Q) : Planner :=
  {| robot := robot p; velocity_scale := velocity_scale p;
     acceleration_scale := scale;
     lockJointConstraints := lockJointConstraints p |}.

(** The two requests [lock_joints] sends to the problem solver. *)
Inductive ps_command : Type :=
| createLockedJoint (constraintName jointName : string) (value : list Q)
| addLockedJointConstraints (lockName : string)
    (constraintNames : list string).

(** "get locked joint values from current configuration": the loop over
    [jointNames]. *)
Fixpoint current_joint_values (all_names : list string) (q_current : list Q)
    (jointNames : list string) (jointValues : list Q) : result (list Q) :=
  match jointNames with
  | [] => Ok jointValues
  | j_name :: rest =>
      j_index ← py_index j_name all_names;
      value ← py_getitem q_current j_index;
      current_joint_values all_names q_current rest (jointValues ++ [value])
  end.

(** "Create the constraints": the loop over [range(len(jointNames))].  The
    requests already sent stay sent when a subscript raises. *)
Fixpoint create_locked_joints (constraintNames jointNames : list string)
    (jointValues : list Q) (range : list nat) (sent : list ps_command)
  : list ps_command * result unit :=
  match range with
  | [] => (sent, Ok ())
  | i :: rest =>
      match (constraintName ← py_getitem constraintNames i;
             jointName ← py_getitem jointNames i;
             value ← py_getitem jointValues i;
             Ok (createLockedJoint constraintName ("robot/" +:+ jointName)
                   [value])) with
      | Ok command =>
          create_locked_joints constraintNames jointNames jointValues rest
            (sent ++ [command])
      | Err e => (sent, Err e)
      end
  end.

(** [Planner.lock_joints]; an omitted optional argument is [None].  The
    result is the list of requests sent to the problem solver, and the
    returned names with the planner as it is afterwards, or the exception. *)
Definition lock_joints (p : Planner) (joints_state : JointState)
    (jointNames : list string) (jointValues : option (list Q))
    (constraintNames : option (list string)) (lockName : string)
  : list ps_command * result (list string * Planner) :=
  let constraintNames :=
    match constraintNames with
    | None => (λ jointName, "locked_" +:+ jointName) <$> jointNames
    | Some constraintNames => constraintNames
    end in
  match (match jointValues with
         | None =>
             let all_names := get_joint_names (model (robot p)) in
             q_current ← get_meas_q (robot p) joints_state false;
             current_joint_values all_names q_current jointNames []
         | Some jointValues => Ok jointValues
         end) with
  | Err e => ([], Err e)
  | Ok jointValues =>
      match create_locked_joints constraintNames jointNames jointValues
              (seq 0 (length jointNames)) [] with
      | (sent, Err e) => (sent, Err e)
      | (sent, Ok _) =>
          (sent ++ [addLockedJointConstraints lockName constraintNames],
           Ok (constraintNames,
               {| robot := robot p; velocity_scale := velocity_scale p;
                  acceleration_scale := acceleration_scale p;
                  lockJointConstraints :=
                    lockJointConstraints p ++ constraintNames |}))
      end
  end.

(** [Planner._convert_orientation]; [fromRPY] stands for
    [Quaternion().fromRPY(...)] followed by [toTuple()]. *)
Definition _convert_orientation (fromRPY : Q → Q → Q → Q * Q * Q * Q)
    (orientation : list Q) : list Q :=
  match orientation with
  | [roll; pitch; yaw] =>
      let '(x, y, z, w) := fromRPY roll pitch yaw in [x; y; z; w]
  | _ => orientation
  end.

(** The head of [make_pick_and_place], for one pose [[position,
    orientation]]: [pose[1] = _convert_orientation(pose[1])] and
    [pose = sum(pose, [])]. *)
Definition merge_pose (fromRPY : Q → Q → Q → Q * Q * Q * Q)
    (pose : list (list Q)) : result (list Q) :=
  orientation ← py_getitem pose 1;
  let pose := <[1:=_convert_orientation fromRPY orientation]> pose in
  Ok (concat pose).

(** "Find which pre-grasp configuration is at the end of the path" in
    [make_gripper_approach]: the loop with its [break]; the result is
    [q_end_grasp], which starts as [None]. *)
Fixpoint find_end_grasp (compare_configurations : config → config → result bool)
    (q_goals : list (config * config)) (q_end : config)
  : result (option config) :=
  match q_goals with
  | [] => Ok None
  | (q_pre, q_grasp) :: rest =>
      same ← compare_configurations q_pre q_end;
      if (same : bool) then Ok (Some q_grasp)
      else find_end_grasp compare_configurations rest q_end
  end.

(** Unpacking [a, b, c, d = t]. *)
Definition py_unpack4 {A} (t : list A) : result (A * A * A * A) :=
  match t with
  | [a; b; c; d] => Ok (a, b, c, d)
  | _ => Err ValueError
  end.

(** [control_from_joy_cb] of example_ur5_impedance.py, with [robot] a
    [Robot] of robot.py; the result is the vector handed to
    [pf.eeVelSample.derivative].  [max_rot_vel] is [np.pi/2], and
    [to_world q vel_loc] stands for the frame placement at [q] applied to
    [vel_loc]. *)
Definition control_from_joy_cb (r : Robot) (joints_state : JointState)
    (axes : list Q) (max_rot_vel : Q) (to_world : list Q → list Q → list Q)
  : result (list Q) :=
  let max_trans_vel := (2 # 10)%Q in
  a6 ← py_getitem axes 6;
  a7 ← py_getitem axes 7;
  a1 ← py_getitem axes 1;
  a3 ← py_getitem axes 3;
  let vel_loc :=
    [max_trans_vel * a6; max_trans_vel * a7; max_trans_vel * a1;
     0; 0; max_rot_vel * a3]%Q in
  match ('(q, v, tau) ← get_meas_qvtau r joints_state false;
         py_unpack4 [q; v; tau]) with
  | Ok (_, q, _, _) => Ok (to_world q vel_loc)
  | Err _ => Ok (replicate 6 0%Q)       (* except: ... np.zeros(6) *)
  end.

(** The friction step of [control_from_fts_cb] on one component of the
    averaged wrench: [np.sign] and the dead band. *)
Definition np_sign (x : Q) : Q :=
  if Qltb x 0 then (-1)%Q else if Qltb 0 x then 1%Q else 0%Q.

Definition res_fric (fric avg : Q) : Q :=
  if Qltb (Qabs avg) fric then 0%Q else (avg - np_sign avg * fric)%Q.

(** The moving average of [control_from_fts_cb]: the globals [filt_list],
    [filt_i] and [filt_avg]; a [pin.Force] is the list of its six
    components. *)
Record fts_filter : Type := {
  filt_list : list (list Q);
  filt_i : nat;
  filt_avg : list Q
}.

Definition FILT_WIN : nat := 100.       (* int(1 / 0.01) *)

Definition fts_filter_init : fts_filter :=
  {| filt_list := replicate FILT_WIN (replicate 6 0%Q);
     filt_i := 0;
     filt_avg := replicate 6 0%Q |}.

Definition force_add (f g : list Q) : list Q := zip_with Qplus f g.
Definition force_sub (f g : list Q) : list Q := zip_with Qminus f g.
Definition force_div (f : list Q) (n : nat) : list Q :=
  (λ x, x / inject_Z (Z.of_nat n))%Q <$> f.

(** [l[i] = x] *)
Definition py_setitem {A} (l : list A) (i : nat) (x : A) : result (list A) :=
  if decide (i < length l) then Ok (<[i:=x]> l) else Err IndexError.

(** The four lines of [control_from_fts_cb] that update the filter with
    the measured wrench [wrist_f]. *)
Definition filter_step (st : fts_filter) (wrist_f : list Q)
  : result fts_filter :=
  old ← py_getitem (filt_list st) (filt_i st);
  let avg := force_sub (filt_avg st) old in
  l ← py_setitem (filt_list st) (filt_i st) (force_div wrist_f FILT_WIN);
  new ← py_getitem l (filt_i st);
  let avg := force_add avg new in
  Ok {| filt_list := l;
        filt_i := (filt_i st + 1) mod FILT_WIN;
        filt_avg := avg |}.

(** The filter after the callbacks for the wrenches [samples], one after
    the other. *)
Fixpoint filter_steps (st : fts_filter) (samples : list (list Q))
  : result fts_filter :=
  match samples with
  | [] => Ok st
  | wrist_f :: rest => st' ← filter_step st wrist_f; filter_steps st' rest
  end.

(** ** Vocabulary of the further properties *)

(** The pairs the sampler accepted, the ids of their direct paths and the
    ids it asked to erase, in the order of the log. *)
Definition accepted_pair (e : entry) : option (config * config) :=
  match e with
  | Entry (directPath q1 q2 _) (true, _, _) => Some (q1, q2)
  | _ => None
  end.

Definition accepted_id (e : entry) : option nat :=
  match e with
  | Entry (directPath _ _ _) (true, pathId, _) => Some pathId
  | _ => None
  end.

Definition erased_id (e : entry) : option nat :=
  match e with
  | Entry (erasePath pathId) _ => Some pathId
  | _ => None
  end.

Definition is_projection (e : entry) : bool :=
  match e with
  | Entry (generateTargetConfig _ _ _) _ => true
  | _ => false
  end.

(** The requests [_create_path] sends after the first two waypoints. *)
Definition append_entries (pathId : nat) (qs : list config) : list entry :=
  (λ q, Entry (appendDirectPath pathId q false) ()) <$> qs.

(** The request [lock_joints] sends for index [i], if the three lists
    reach that far. *)
Definition locked_joint_at (constraintNames jointNames : list string)
    (jointValues : list Q) (i : nat) : option ps_command :=
  constraintName ← constraintNames !! i;
  jointName ← jointNames !! i;
  value ← jointValues !! i;
  Some (createLockedJoint constraintName ("robot/" +:+ jointName) [value]).

(** * Properties of robot.py *)

Lemma py_index_Ok `{EqDecision A} (x : A) (l : list A) (i : nat) :
  py_index x l = Ok i ↔ l !! i = Some x ∧ ∀ j, j < i → l !! j ≠ Some x.
Proof.
  unfold py_index. split.
  - destruct (list_find _ l) as [[k y]|] eqn:E; [|done].
    intros [= ->]. apply list_find_Some in E as (Hk & -> & Hmin).
    split; [done|]. intros j Hj Hl. by apply (Hmin j x).
  - intros [Hi Hmin].
    assert (list_find (λ y, y = x) l = Some (i, x)) as ->; [|done].
    apply list_find_Some. split_and!; [done..|].
    intros j y Hj Hlt ->. by apply (Hmin j).
Qed.

Lemma py_index_elem_of `{EqDecision A} (x : A) (l : list A) :
  x ∈ l → ∃ i, py_index x l = Ok i.
Proof.
  intros Hx. unfold py_index.
  destruct (list_find_elem_of (λ y, y = x) l x Hx eq_refl) as [[i y] ->].
  eauto.
Qed.

Lemma py_index_NoDup `{EqDecision A} (x : A) (l : list A) (i : nat) :
  NoDup l → l !! i = Some x → py_index x l = Ok i.
Proof.
  intros Hnd Hi. apply py_index_Ok. split; [done|].
  intros j Hj Hl. pose proof (NoDup_lookup _ _ _ _ Hnd Hi Hl). lia.
Qed.

Lemma enumerate_joint_seq n index acc :
  enumerate_joint n index acc = (acc ++ seq index n, index + n).
Proof.
  revert index acc. induction n as [|n IH]; intros index acc; simpl.
  - by rewrite app_nil_r, Nat.add_0_r.
  - rewrite IH, <- app_assoc. simpl. f_equal. lia.
Qed.

Lemma group_dofs_blocks dof js index acc :
  group_dofs dof js index acc = acc ++ dof_blocks (dof <$> js) index.
Proof.
  revert index acc. induction js as [|j js IH]; intros index acc; simpl.
  - by rewrite app_nil_r.
  - rewrite enumerate_joint_seq. simpl. rewrite IH, <- app_assoc. done.
Qed.

Lemma flatten_join l acc : flatten l acc = acc ++ mjoin l.
Proof.
  revert acc. induction l as [|x l IH]; intros acc; simpl.
  - by rewrite app_nil_r.
  - by rewrite IH, <- app_assoc.
Qed.

Lemma length_dof_blocks sizes index :
  length (dof_blocks sizes index) = length sizes.
Proof.
  revert index. induction sizes as [|n sizes IH]; intros index; simpl;
    [done|by rewrite IH].
Qed.

Lemma take_dof_blocks k sizes index :
  take k (dof_blocks sizes index) = dof_blocks (take k sizes) index.
Proof.
  revert k index. induction sizes as [|n sizes IH]; intros [|k] index; simpl;
    [done..|by rewrite IH].
Qed.

Lemma join_dof_blocks sizes index :
  mjoin (dof_blocks sizes index) = seq index (sum_list sizes).
Proof.
  revert index. induction sizes as [|n sizes IH]; intros index; simpl;
    [done|].
  by rewrite IH, seq_app.
Qed.

Lemma rearrange_joints_Ok pin_joint_names x_pin_to_pin new_joint_list acc :
  (∀ x, x ∈ new_joint_list → x ∈ pin_joint_names) →
  length pin_joint_names ≤ length x_pin_to_pin →
  rearrange_joints pin_joint_names x_pin_to_pin new_joint_list acc
  = Ok (acc ++ (block_of pin_joint_names x_pin_to_pin <$> new_joint_list)).
Proof.
  intros Hin Hlen. revert acc Hin.
  induction new_joint_list as [|x new IH]; intros acc Hin; simpl.
  - by rewrite app_nil_r.
  - destruct (py_index_elem_of x pin_joint_names) as [i Hi].
    { apply Hin. by left. }
    unfold block_of at 1. rewrite Hi. simpl.
    apply py_index_Ok in Hi as [Hi _]. apply lookup_lt_Some in Hi.
    destruct (lookup_lt_is_Some_2 x_pin_to_pin i) as [b Hb]; [lia|].
    unfold py_getitem. rewrite Hb. simpl.
    rewrite IH, <- app_assoc; [done|]. intros y Hy. apply Hin. by right.
Qed.

Lemma block_of_names pin_joint_names x_pin_to_pin :
  NoDup pin_joint_names →
  length pin_joint_names ≤ length x_pin_to_pin →
  block_of pin_joint_names x_pin_to_pin <$> pin_joint_names
  = take (length pin_joint_names) x_pin_to_pin.
Proof.
  intros Hnd Hlen. apply list_eq. intros k.
  rewrite list_lookup_fmap.
  destruct (decide (k < length pin_joint_names)) as [Hk|Hk].
  - rewrite lookup_take_lt by done.
    destruct (lookup_lt_is_Some_2 pin_joint_names k Hk) as [x Hx].
    rewrite Hx. simpl. unfold block_of.
    rewrite (py_index_NoDup x pin_joint_names k Hnd Hx).
    destruct (lookup_lt_is_Some_2 x_pin_to_pin k) as [b ->]; [lia|done].
  - rewrite lookup_take_ge by lia.
    by rewrite (lookup_ge_None_2 pin_joint_names k) by lia.
Qed.

Lemma invert_lookup_Ok res range acc :
  (∀ i, i ∈ range → i ∈ res) →
  ∃ out, invert_lookup res range acc = Ok (acc ++ out) ∧
         length out = length range ∧
         ∀ k i, range !! k = Some i →
                ∃ p, out !! k = Some p ∧ py_index i res = Ok p.
Proof.
  revert acc. induction range as [|i range IH]; intros acc Hin; simpl.
  - exists []. rewrite app_nil_r. split_and!; [done..|]. by intros k i.
  - destruct (py_index_elem_of i res) as [p Hp].
    { apply Hin. by left. }
    rewrite Hp. simpl.
    destruct (IH (acc ++ [p])) as (out & -> & Hlen & Hout).
    { intros j Hj. apply Hin. by right. }
    exists (p :: out). rewrite <- app_assoc. split_and!; [done|simpl; lia|].
    intros [|k] j Hk; simplify_eq/=; eauto.
Qed.

(** A table that lists [0 .. N-1] in some order and the table
    [invert_lookup] derives from it are inverse to each other. *)
Lemma invert_lookup_inverse res N :
  res ≡ₚ seq 0 N →
  ∃ out, invert_lookup res (seq 0 (length res)) [] = Ok out ∧
         inverse_on res out ∧ inverse_on out res.
Proof.
  intros Hperm.
  assert (length res = N) as HlenN.
  { by rewrite Hperm, length_seq. }
  assert (NoDup res) as Hnd.
  { rewrite Hperm. apply NoDup_seq. }
  assert (∀ i, i ∈ res ↔ i < N) as Hmem.
  { intros i. rewrite Hperm, elem_of_seq. lia. }
  destruct (invert_lookup_Ok res (seq 0 (length res)) []) as (out & Hrun & Hlen & Hout).
  { intros i. rewrite elem_of_seq, Hmem. lia. }
  rewrite length_seq in Hlen.
  exists out. split; [done|].
  assert (∀ i, i < N → ∃ p, out !! i = Some p ∧ res !! p = Some i) as Hinv.
  { intros i Hi. destruct (Hout i i) as (p & Hp & Hidx).
    - rewrite HlenN. by apply lookup_seq_lt.
    - exists p. split; [done|]. by apply py_index_Ok in Hidx as [? _]. }
  split; (split; [lia|]).
  - intros p Hp.
    destruct (lookup_lt_is_Some_2 res p Hp) as [j Hj].
    assert (j < N) as HjN.
    { apply Hmem. by eapply list_elem_of_lookup_2. }
    destruct (Hinv j HjN) as (p' & Hp' & Hres).
    exists j. split_and!; [done|lia|].
    by rewrite (NoDup_lookup _ _ _ _ Hnd Hj Hres).
  - intros i Hi. assert (i < N) as HiN by lia.
    destruct (Hinv i HiN) as (p & Hp & Hres).
    exists p. split_and!; [done| |done].
    apply lookup_lt_Some in Hres. lia.
Qed.

(** One half of [create_dof_lookup] on a model whose joint names are
    distinct: the new-to-pin table lists the scalars of the first
    [length (get_joint_names m)] entries of [joints m], and the two tables
    are inverse to each other. *)
Lemma dof_lookup_inverse dof m new_joint_list :
  NoDup (get_joint_names m) →
  new_joint_list ≡ₚ get_joint_names m →
  length (get_joint_names m) ≤ length (joints m) →
  ∃ pin_to_new new_to_pin,
    dof_lookup dof m new_joint_list = Ok (pin_to_new, new_to_pin) ∧
    new_to_pin ≡ₚ seq 0 (scalar_count dof m) ∧
    inverse_on new_to_pin pin_to_new ∧ inverse_on pin_to_new new_to_pin.
Proof.
  intros Hnd Hperm Hlen. unfold dof_lookup.
  rewrite group_dofs_blocks. simpl.
  set (blocks := dof_blocks (dof <$> joints m) 0).
  assert (length (get_joint_names m) ≤ length blocks) as Hlen'.
  { unfold blocks. by rewrite length_dof_blocks, length_fmap. }
  rewrite (rearrange_joints_Ok _ _ _ []); [|by intros x; rewrite Hperm|done].
  simpl. rewrite flatten_join. simpl.
  set (res := mjoin (block_of (get_joint_names m) blocks <$> new_joint_list)).
  assert (res ≡ₚ seq 0 (scalar_count dof m)) as Hres.
  { unfold res, scalar_count. rewrite Hperm, block_of_names by done.
    unfold blocks. by rewrite take_dof_blocks, join_dof_blocks. }
  destruct (invert_lookup_inverse res _ Hres) as (out & -> & H1 & H2).
  simpl. eauto 10.
Qed.

(** For a pinocchio model with distinct joint names and a new joint list
    that is a permutation of them, [create_dof_lookup] returns four tables.
    The new-to-pin configuration table lists the indices [0 .. n-1] in some
    order, and it and the pin-to-new table are inverse to each other in both
    directions.  Here [n] is [scalar_count]: the scalars of the blocks that
    the joint names reach, which need not be the scalars of the named
    joints.  The same holds of the velocity pair, built from its own
    per-joint scalar count ([nv] instead of [nq]) and with its own [n]. *)
Theorem create_dof_lookup_bijection (m : Model) (new_joint_list : list string) :
  NoDup (get_joint_names m) →
  new_joint_list ≡ₚ get_joint_names m →
  length (get_joint_names m) ≤ length (joints m) →
  ∃ q_pin_to_new q_new_to_pin v_pin_to_new v_new_to_pin,
    create_dof_lookup m new_joint_list
    = Ok (q_pin_to_new, q_new_to_pin, v_pin_to_new, v_new_to_pin) ∧
    (q_new_to_pin ≡ₚ seq 0 (scalar_count nq m) ∧
     inverse_on q_new_to_pin q_pin_to_new ∧
     inverse_on q_pin_to_new q_new_to_pin) ∧
    (v_new_to_pin ≡ₚ seq 0 (scalar_count nv m) ∧
     inverse_on v_new_to_pin v_pin_to_new ∧
     inverse_on v_pin_to_new v_new_to_pin).
Proof.
  intros Hnd Hperm Hlen. unfold create_dof_lookup.
  destruct (dof_lookup_inverse nq m new_joint_list Hnd Hperm Hlen)
    as (qpn & qnp & -> & Hq & Hq1 & Hq2).
  destruct (dof_lookup_inverse nv m new_joint_list Hnd Hperm Hlen)
    as (vpn & vnp & -> & Hv & Hv1 & Hv2).
  simpl. eauto 12.
Qed.

Lemma create_dof_lookup_bijection_witness :
  ∃ q_pin_to_new q_new_to_pin v_pin_to_new v_new_to_pin,
    create_dof_lookup spherical_model ["R"; "S"]%string
    = Ok (q_pin_to_new, q_new_to_pin, v_pin_to_new, v_new_to_pin) ∧
    (q_new_to_pin ≡ₚ seq 0 (scalar_count nq spherical_model) ∧
     inverse_on q_new_to_pin q_pin_to_new ∧
     inverse_on q_pin_to_new q_new_to_pin) ∧
    (v_new_to_pin ≡ₚ seq 0 (scalar_count nv spherical_model) ∧
     inverse_on v_new_to_pin v_pin_to_new ∧
     inverse_on v_pin_to_new v_new_to_pin).
Proof.
  apply (create_dof_lookup_bijection spherical_model ["R"; "S"]%string).
  - by apply (bool_decide_unpack _).
  - vm_compute. apply perm_swap.
  - vm_compute. lia.
Defined.

(** The tables of scenario 1 had [pin_model.joints] not started with the
    universe joint: the blocks line up with [names[1:]], the new-to-pin
    table is [1, 2, 0] and [10, 20, 30] is reordered to [20, 30, 10]. *)
Example scenario1_without_universe :
  dof_lookup nq
    {| names := ["universe"; "A"; "B"]%string;
       joints := [{| nq := 1; nv := 1 |}; {| nq := 2; nv := 2 |}];
       lowerPositionLimit := []; upperPositionLimit := [] |}
    scenario1_external = Ok ([2; 0; 1], [1; 2; 0]) ∧
  reorder [1; 2; 0] [10; 20; 30] = Ok [20; 30; 10].
Proof. split; reflexivity. Qed.

(** C2. On the pinocchio model of scenario 1 (universe, A with one
    configuration scalar, B with two) and the ROS order [B, A],
    [create_dof_lookup] pairs the names [names[1:]] with the blocks of
    [joints] one place too early: B gets the block of A and A the block of
    the universe joint.  Whatever scalar count pinocchio reports for the
    universe joint, the new-to-pin table is [nq universe] followed by
    [0 .. nq universe - 1]; it is never [1, 2, 0], and reordering
    [10, 20, 30] with it never gives [20, 30, 10]. *)
Theorem scenario1_table_off_by_one (universe : JointModel) :
  (∃ q_pin_to_new v_pin_to_new v_new_to_pin,
     create_dof_lookup (scenario1_model universe) scenario1_external
     = Ok (q_pin_to_new, nq universe :: seq 0 (nq universe),
           v_pin_to_new, v_new_to_pin)) ∧
  nq universe :: seq 0 (nq universe) ≠ [1; 2; 0] ∧
  reorder (nq universe :: seq 0 (nq universe)) [10; 20; 30]
  ≠ Ok [20; 30; 10].
Proof.
  split_and!.
  - assert (NoDup (get_joint_names (scenario1_model universe))) as Hnd.
    { by apply (bool_decide_unpack _). }
    assert (scenario1_external ≡ₚ get_joint_names (scenario1_model universe))
      as Hperm by apply perm_swap.
    assert (length (get_joint_names (scenario1_model universe))
            ≤ length (joints (scenario1_model universe))) as Hlen
      by (simpl; lia).
    unfold create_dof_lookup.
    destruct (dof_lookup_inverse nv _ _ Hnd Hperm Hlen)
      as (vpn & vnp & -> & _).
    destruct (dof_lookup_inverse nq _ _ Hnd Hperm Hlen)
      as (qpn & qnp & Hq & _).
    assert (qnp = nq universe :: seq 0 (nq universe)) as ->.
    { revert Hq. unfold dof_lookup. rewrite group_dofs_blocks.
      cbn -[invert_lookup seq py_index].
      change (py_index "B"%string ["A"; "B"]%string) with (@Ok nat 1).
      change (py_index "A"%string ["A"; "B"]%string) with (@Ok nat 0).
      cbn -[invert_lookup seq].
      destruct (invert_lookup _ _ _); [|done]. cbn. by intros [= _ <-]. }
    rewrite Hq. simpl. eauto.
  - destruct (nq universe) as [|[|?]]; done.
  - destruct (nq universe) as [|[|[|?]]]; done.
Qed.

(** The configuration tables of scenario 1, whatever the universe joint. *)
Lemma scenario1_dof_lookup_nq (universe : JointModel) :
  ∃ q_pin_to_new,
    dof_lookup nq (scenario1_model universe) scenario1_external
    = Ok (q_pin_to_new, nq universe :: seq 0 (nq universe)).
Proof.
  assert (NoDup (get_joint_names (scenario1_model universe))) as Hnd.
  { by apply (bool_decide_unpack _). }
  assert (scenario1_external ≡ₚ get_joint_names (scenario1_model universe))
    as Hperm by apply perm_swap.
  assert (length (get_joint_names (scenario1_model universe))
          ≤ length (joints (scenario1_model universe))) as Hlen
    by (simpl; lia).
  destruct (dof_lookup_inverse nq _ _ Hnd Hperm Hlen)
    as (qpn & qnp & Hq & _).
  exists qpn. rewrite Hq. do 2 f_equal.
  revert Hq. unfold dof_lookup. rewrite group_dofs_blocks.
  cbn -[invert_lookup seq py_index].
  change (py_index "B"%string ["A"; "B"]%string) with (@Ok nat 1).
  change (py_index "A"%string ["A"; "B"]%string) with (@Ok nat 0).
  cbn -[invert_lookup seq].
  destruct (invert_lookup _ _ _); [|done]. cbn. by intros [= _ <-].
Qed.

(** C1. The model of scenario 1 (universe, A with one configuration
    scalar, B with two) and the ROS order [B, A] are two layouts of the same
    joints, three configuration scalars in all.  Unless the universe joint
    happens to count two configuration scalars, the configuration tables
    that [create_dof_lookup] returns are no bijection on [0, 3): they have
    [nq universe + 1] entries, taking a table entry and then its inverse
    does not give back every index below 3, and no vector of three scalars
    can be reordered with the new-to-pin table: the comprehension raises
    [IndexError]. *)
Theorem scenario1_tables_not_bijection (universe : JointModel) :
  nq universe ≠ 2 →
  scenario1_external ≡ₚ get_joint_names (scenario1_model universe) ∧
  layout_scalars nq (scenario1_model universe) = 3 ∧
  ∃ q_pin_to_new q_new_to_pin v_pin_to_new v_new_to_pin,
    create_dof_lookup (scenario1_model universe) scenario1_external
    = Ok (q_pin_to_new, q_new_to_pin, v_pin_to_new, v_new_to_pin) ∧
    length q_new_to_pin = nq universe + 1 ∧
    ¬ bijection_on 3 q_new_to_pin q_pin_to_new ∧
    ∀ x : list nat, length x = 3 → reorder q_new_to_pin x = Err IndexError.
Proof.
  intros Hu. split_and!; [apply perm_swap|done|].
  assert (NoDup (get_joint_names (scenario1_model universe))) as Hnd.
  { by apply (bool_decide_unpack _). }
  assert (scenario1_external ≡ₚ get_joint_names (scenario1_model universe))
    as Hperm by apply perm_swap.
  assert (length (get_joint_names (scenario1_model universe))
          ≤ length (joints (scenario1_model universe))) as Hlen
    by (simpl; lia).
  unfold create_dof_lookup.
  destruct (scenario1_dof_lookup_nq universe) as (qpn & ->).
  destruct (dof_lookup_inverse nv _ _ Hnd Hperm Hlen)
    as (vpn & vnp & -> & _).
  exists qpn, (nq universe :: seq 0 (nq universe)), vpn, vnp.
  split_and!.
  - done.
  - cbn [length]. rewrite length_seq. lia.
  - intros Hbij. destruct (nq universe) as [|[|[|u]]]; [| |done|].
    + destruct (Hbij 1) as (j & Hj & _); [lia|done].
    + destruct (Hbij 2) as (j & Hj & _); [lia|done].
    + destruct (Hbij 0) as (j & Hj & Hlt & _); [lia|].
      simplify_eq/=. lia.
  - intros [|a [|b [|c [|]]]] Hx; simplify_eq/=.
    destruct (nq universe) as [|[|[|u]]]; done.
Qed.

Lemma scenario1_tables_not_bijection_witness :
  scenario1_external
  ≡ₚ get_joint_names (scenario1_model {| nq := 1; nv := 1 |}) ∧
  layout_scalars nq (scenario1_model {| nq := 1; nv := 1 |}) = 3 ∧
  ∃ q_pin_to_new q_new_to_pin v_pin_to_new v_new_to_pin,
    create_dof_lookup (scenario1_model {| nq := 1; nv := 1 |})
      scenario1_external
    = Ok (q_pin_to_new, q_new_to_pin, v_pin_to_new, v_new_to_pin) ∧
    length q_new_to_pin = 1 + 1 ∧
    ¬ bijection_on 3 q_new_to_pin q_pin_to_new ∧
    ∀ x : list nat, length x = 3 → reorder q_new_to_pin x = Err IndexError.
Proof.
  apply (scenario1_tables_not_bijection {| nq := 1; nv := 1 |}).
  simpl. lia.
Defined.

(** ** Bounds validation in [get_meas_qvtau] *)

Lemma Qltb_true a b : Qltb a b = true ↔ (a < b)%Q.
Proof.
  unfold Qltb. rewrite negb_true_iff, <- not_true_iff_false, Qle_bool_iff.
  split; [apply Qnot_le_lt|apply Qlt_not_le].
Qed.

Lemma Qltb_false a b : Qltb a b = false ↔ (b <= a)%Q.
Proof. unfold Qltb. by rewrite negb_false_iff, Qle_bool_iff. Qed.

Lemma clamp_in_bounds lower upper pos :
  (lower <= upper)%Q → (lower <= clamp lower upper pos <= upper)%Q.
Proof.
  intros Hlu. unfold clamp, py_min, py_max.
  destruct (Qltb pos lower) eqn:E1.
  - destruct (Qltb upper lower) eqn:E2.
    + apply Qltb_true in E2. by apply Qlt_not_le in E2.
    + split; [apply Qle_refl|done].
  - apply Qltb_false in E1.
    destruct (Qltb upper pos) eqn:E2.
    + split; [done|apply Qle_refl].
    + apply Qltb_false in E2. done.
Qed.

Lemma py_getitem_total `{!Inhabited A} (l : list A) i :
  i < length l → py_getitem l i = Ok (l !!! i).
Proof.
  intros Hi. unfold py_getitem.
  destruct (lookup_lt_is_Some_2 l i Hi) as [x Hx].
  by rewrite Hx, (list_lookup_total_correct _ _ _ Hx).
Qed.

(** The in-place loop computes [clamp_from]. *)
Lemma clamp_loop_clamp_from m done todo :
  length (done ++ todo) ≤ length (lowerPositionLimit m) →
  length (done ++ todo) ≤ length (upperPositionLimit m) →
  clamp_loop m (seq (length done) (length todo)) (done ++ todo)
  = todo' ← clamp_from m (length done) todo; Ok (done ++ todo').
Proof.
  revert done. induction todo as [|pos todo IH]; intros done Hlo Hup.
  - done.
  - rewrite length_app in Hlo, Hup. simpl in Hlo, Hup.
    cbn [length seq clamp_loop clamp_from].
    assert (py_getitem (done ++ pos :: todo) (length done) = Ok pos) as ->.
    { unfold py_getitem. by rewrite list_lookup_middle. }
    cbn [mbind result_bind].
    rewrite !py_getitem_total by lia. cbn [mbind result_bind].
    fold (clamp (lowerPositionLimit m !!! length done)
                (upperPositionLimit m !!! length done) pos).
    fold (clamped m (length done) pos). fold (deviation m (length done) pos).
    destruct (Qltb _ _); [|done].
    assert (<[length done:=clamped m (length done) pos]> (done ++ pos :: todo)
            = (done ++ [clamped m (length done) pos]) ++ todo) as ->.
    { rewrite insert_app_r_alt, Nat.sub_diag by lia. simpl.
      by rewrite <- app_assoc. }
    replace (S (length done))
      with (length (done ++ [clamped m (length done) pos]))
      by (rewrite length_app; simpl; lia).
    rewrite IH by (rewrite !length_app; simpl; lia).
    rewrite length_app. simpl. rewrite Nat.add_1_r.
    destruct (clamp_from m (S (length done)) todo); [|done].
    simpl. by rewrite <- app_assoc.
Qed.

Lemma clamp_from_Ok m i todo :
  (∀ k pos, todo !! k = Some pos → (deviation m (i + k) pos < 1 # 1000)%Q) →
  clamp_from m i todo = Ok (imap (λ k pos, clamped m (i + k) pos) todo).
Proof.
  revert i. induction todo as [|pos todo IH]; intros i Hall; [done|].
  cbn [clamp_from imap].
  specialize (Hall 0 pos eq_refl) as H0. rewrite Nat.add_0_r in H0 |- *.
  apply Qltb_true in H0. rewrite H0.
  rewrite IH.
  - simpl. do 2 f_equal. apply imap_ext. intros k x _. simpl.
    f_equal. lia.
  - intros k x Hk. replace (S i + k) with (i + S k) by lia. by apply Hall.
Qed.

Lemma clamp_from_Err m i todo e :
  clamp_from m i todo = Err e ↔
  e = AttributeError ∧
  ∃ k pos, todo !! k = Some pos ∧ (1 # 1000 <= deviation m (i + k) pos)%Q ∧
           ∀ k' pos', k' < k → todo !! k' = Some pos' →
                      (deviation m (i + k') pos' < 1 # 1000)%Q.
Proof.
  revert i e. induction todo as [|pos todo IH]; intros i e.
  { split; [done|]. by intros (_ & k & x & ? & _). }
  cbn [clamp_from]. destruct (Qltb (deviation m i pos) (1 # 1000)) eqn:E.
  - apply Qltb_true in E. split.
    + destruct (clamp_from m (S i) todo) eqn:E'; [done|].
      intros [= <-]. apply IH in E' as (-> & k & x & Hk & Hdev & Hmin).
      split; [done|]. exists (S k), x. split_and!; [done| |].
      * by replace (i + S k) with (S i + k) by lia.
      * intros [|k'] x' Hlt Hk'; simplify_eq/=.
        -- by rewrite Nat.add_0_r.
        -- replace (i + S k') with (S i + k') by lia.
           apply (Hmin k' x'); [lia|done].
    + intros (-> & [|k] & x & Hk & Hdev & Hmin); simplify_eq/=.
      { rewrite Nat.add_0_r in Hdev. by apply Qlt_not_le in E. }
      assert (clamp_from m (S i) todo = Err AttributeError) as ->; [|done].
      apply IH. split; [done|]. exists k, x. split_and!; [done| |].
      { by replace (S i + k) with (i + S k) by lia. }
      intros k' x' Hlt Hk'. replace (S i + k') with (i + S k') by lia.
      apply (Hmin (S k') x'); [lia|done].
  - apply Qltb_false in E. split.
    + intros [= <-]. split; [done|]. exists 0, pos. rewrite Nat.add_0_r.
      split_and!; [done..|]. intros; lia.
    + intros (-> & [|k] & x & Hk & Hdev & Hmin); simplify_eq/=; [done|].
      specialize (Hmin 0 pos ltac:(lia) eq_refl).
      rewrite Nat.add_0_r in Hmin. by apply Qlt_not_le in Hmin.
Qed.

Lemma reorder_loop_Err {A} table (x : list A) range acc e :
  reorder_loop table x range acc = Err e → e = IndexError.
Proof.
  revert acc. induction range as [|i range IH]; intros acc; [done|].
  simpl. unfold py_getitem.
  destruct (table !! i) as [j|]; simpl; [|by intros [= <-]].
  destruct (x !! j) as [xj|]; simpl; [|by intros [= <-]].
  apply IH.
Qed.

Lemma _rearrange_ros_to_pin_Some r q v tau :
  _rearrange_ros_to_pin r (Some q) (Some v) (Some tau)
  = q_res ← reorder (_q_pin_to_ros r) q;
    v_res ← reorder (_v_pin_to_ros r) v;
    tau_res ← reorder (_v_pin_to_ros r) tau;
    Ok [q_res; v_res; tau_res].
Proof.
  unfold _rearrange_ros_to_pin.
  destruct (reorder (_q_pin_to_ros r) q); [|done]. simpl.
  destruct (reorder (_v_pin_to_ros r) v); [|done]. simpl.
  by destruct (reorder (_v_pin_to_ros r) tau).
Qed.

Lemma clamp_from_Ok_inv m i todo out :
  clamp_from m i todo = Ok out →
  ∀ k pos, todo !! k = Some pos → (deviation m (i + k) pos < 1 # 1000)%Q.
Proof.
  revert i out. induction todo as [|pos todo IH]; intros i out; [done|].
  cbn [clamp_from]. destruct (Qltb (deviation m i pos) (1 # 1000)) eqn:E; [|done].
  apply Qltb_true in E.
  destruct (clamp_from m (S i) todo) as [rest'|] eqn:E'; [|done].
  intros _ [|k] x Hk; simplify_eq/=.
  - by rewrite Nat.add_0_r.
  - replace (i + S k) with (S i + k) by lia. by eapply IH.
Qed.

Lemma get_meas_qvtau_clamp_from r js q v tau :
  reorder (_q_pin_to_ros r) (position js) = Ok q →
  reorder (_v_pin_to_ros r) (velocity js) = Ok v →
  reorder (_v_pin_to_ros r) (effort js) = Ok tau →
  length q ≤ length (lowerPositionLimit (model r)) →
  length q ≤ length (upperPositionLimit (model r)) →
  get_meas_qvtau r js false
  = q' ← clamp_from (model r) 0 q; Ok (q', v, tau).
Proof.
  intros Hq Hv Htau Hlo Hup. unfold get_meas_qvtau.
  rewrite _rearrange_ros_to_pin_Some, Hq, Hv, Htau. simpl.
  pose proof (clamp_loop_clamp_from (model r) [] q Hlo Hup) as Hloop.
  simpl in Hloop. rewrite Hloop. by destruct (clamp_from (model r) 0 q).
Qed.

(** What a read with [raw] unset raises when a scalar is too far out of
    its limits: the message of the assertion cannot be built, and the
    [AttributeError] of that is what comes out, for the first such scalar;
    the [AssertionError] of the docstring is never raised. *)
Lemma get_meas_qvtau_Err (r : Robot) (js : JointState) (q v tau : list Q) e :
  reorder (_q_pin_to_ros r) (position js) = Ok q →
  reorder (_v_pin_to_ros r) (velocity js) = Ok v →
  reorder (_v_pin_to_ros r) (effort js) = Ok tau →
  length q ≤ length (lowerPositionLimit (model r)) →
  length q ≤ length (upperPositionLimit (model r)) →
  get_meas_qvtau r js false = Err e ↔
  e = AttributeError ∧
  ∃ i pos, q !! i = Some pos ∧ (1 # 1000 <= deviation (model r) i pos)%Q ∧
           ∀ j pos', j < i → q !! j = Some pos' →
                     (deviation (model r) j pos' < 1 # 1000)%Q.
Proof.
  intros Hq Hv Htau Hlo Hup.
  rewrite (get_meas_qvtau_clamp_from r js q v tau Hq Hv Htau Hlo Hup).
  rewrite <- (clamp_from_Err (model r) 0 q e).
  destruct (clamp_from (model r) 0 q); simpl; split; congruence.
Qed.

(** C8, as the code has it by design.  With [raw] unset, [get_meas_qvtau]
    replaces each scalar of the reordered configuration by its clamp into
    [lower_i, upper_i] and returns, provided every clamp moves its scalar by
    strictly less than the tolerance 1e-3, as the [assert] demands; the read
    fails with an exception if and only if the clamp moves some scalar by
    at least 1e-3.  A reading of 1.0005 against [0, 1] is clamped to 1.0
    and a reading of 1.1 makes the read fail. *)
Theorem get_meas_qvtau_clamps (r : Robot) (js : JointState)
    (q v tau : list Q) :
  reorder (_q_pin_to_ros r) (position js) = Ok q →
  reorder (_v_pin_to_ros r) (velocity js) = Ok v →
  reorder (_v_pin_to_ros r) (effort js) = Ok tau →
  length q ≤ length (lowerPositionLimit (model r)) →
  length q ≤ length (upperPositionLimit (model r)) →
  (∀ i pos,
     (lowerPositionLimit (model r) !!! i
      <= upperPositionLimit (model r) !!! i)%Q →
     (lowerPositionLimit (model r) !!! i <= clamped (model r) i pos
      <= upperPositionLimit (model r) !!! i)%Q) ∧
  ((∀ i pos, q !! i = Some pos → (deviation (model r) i pos < 1 # 1000)%Q) →
   get_meas_qvtau r js false = Ok (imap (clamped (model r)) q, v, tau)) ∧
  ((∃ e, get_meas_qvtau r js false = Err e) ↔
   ∃ i pos, q !! i = Some pos ∧ (1 # 1000 <= deviation (model r) i pos)%Q) ∧
  get_meas_qvtau scenario2_robot (scenario2_reading (10005 # 10000)) false
  = Ok ([1%Q], [0%Q], [0%Q]) ∧
  ∃ e, get_meas_qvtau scenario2_robot (scenario2_reading (11 # 10)) false
       = Err e.
Proof.
  intros Hq Hv Htau Hlo Hup.
  pose proof (get_meas_qvtau_clamp_from r js q v tau Hq Hv Htau Hlo Hup)
    as Hrun.
  assert (∀ e, get_meas_qvtau r js false = Err e
               ↔ clamp_from (model r) 0 q = Err e) as Herr.
  { intros e. rewrite Hrun. destruct (clamp_from (model r) 0 q); simpl;
      split; congruence. }
  split_and!.
  - intros i pos Hlu. by apply clamp_in_bounds.
  - intros Hall. rewrite Hrun, (clamp_from_Ok _ 0 q) by done. done.
  - split.
    + intros [e He]. apply Herr, clamp_from_Err in He
        as (_ & k & pos & Hk & Hdev & _). eauto.
    + intros (i & pos & Hi & Hdev).
      destruct (clamp_from (model r) 0 q) as [out|e] eqn:E.
      * pose proof (clamp_from_Ok_inv _ _ _ _ E i pos Hi) as Hlt.
        by apply Qlt_not_le in Hlt.
      * exists e. by apply Herr.
  - reflexivity.
  - eexists. reflexivity.
Qed.

Lemma get_meas_qvtau_clamps_witness :
  get_meas_qvtau scenario2_robot (scenario2_reading (10005 # 10000)) false
  = Ok (imap (clamped (model scenario2_robot)) [10005 # 10000], [0%Q], [0%Q]).
Proof.
  refine (proj1 (proj2 (get_meas_qvtau_clamps scenario2_robot
            (scenario2_reading (10005 # 10000)) [10005 # 10000] [0%Q] [0%Q]
            _ _ _ _ _)) _).
  - reflexivity.
  - reflexivity.
  - reflexivity.
  - simpl. lia.
  - simpl. lia.
  - intros [|i] pos Hi; simplify_eq/=. reflexivity.
Defined.

(** C8, counterexample to the tolerance being exclusive: a reading of
    -0.001 against [0, 1] is moved by the clamp by exactly 1e-3, not by
    more, and yet the read does not return the clamped configuration: it
    fails. *)
Lemma get_meas_qvtau_tolerance_counterexample :
  get_meas_qvtau scenario2_robot (scenario2_reading (-1 # 1000)) false
  = Err AttributeError ∧
  get_meas_qvtau scenario2_robot (scenario2_reading (-1 # 1000)) false
  ≠ Ok ([0%Q], [0%Q], [0%Q]) ∧
  ¬ (1 # 1000 < deviation (model scenario2_robot) 0 (-1 # 1000))%Q.
Proof.
  split_and!; [reflexivity|discriminate|]. by apply Qle_not_lt.
Qed.

(** C9. With [raw=True], [get_meas_qvtau] returns the reordered position,
    velocity and effort as they are: the joint limits are never read, no
    value is clamped and the out-of-bounds assertion is never raised. *)
Theorem get_meas_qvtau_raw (r : Robot) (js : JointState) :
  (∀ q v tau,
     reorder (_q_pin_to_ros r) (position js) = Ok q →
     reorder (_v_pin_to_ros r) (velocity js) = Ok v →
     reorder (_v_pin_to_ros r) (effort js) = Ok tau →
     get_meas_qvtau r js true = Ok (q, v, tau)) ∧
  (∀ a, get_meas_qvtau r js true ≠ Err (AssertionError a)) ∧
  (∀ lower upper,
     get_meas_qvtau
       {| model := {| names := names (model r); joints := joints (model r);
                      lowerPositionLimit := lower;
                      upperPositionLimit := upper |};
          _q_pin_to_ros := _q_pin_to_ros r; _q_ros_to_pin := _q_ros_to_pin r;
          _v_pin_to_ros := _v_pin_to_ros r; _v_ros_to_pin := _v_ros_to_pin r |}
       js true
     = get_meas_qvtau r js true).
Proof.
  split_and!.
  - intros q v tau Hq Hv Htau. unfold get_meas_qvtau.
    by rewrite _rearrange_ros_to_pin_Some, Hq, Hv, Htau.
  - intros a. unfold get_meas_qvtau. rewrite _rearrange_ros_to_pin_Some.
    unfold reorder.
    destruct (reorder_loop _ (position js) _ _) eqn:E1; simpl;
      [|by apply reorder_loop_Err in E1 as ->].
    destruct (reorder_loop _ (velocity js) _ _) eqn:E2; simpl;
      [|by apply reorder_loop_Err in E2 as ->].
    destruct (reorder_loop _ (effort js) _ _) eqn:E3; simpl;
      [done|by apply reorder_loop_Err in E3 as ->].
  - done.
Qed.

Lemma get_meas_qvtau_raw_witness :
  get_meas_qvtau scenario2_robot (scenario2_reading (1000 # 1)) true
  = Ok ([1000 # 1], [0%Q], [0%Q]).
Proof.
  apply (proj1 (get_meas_qvtau_raw scenario2_robot
                  (scenario2_reading (1000 # 1)))); reflexivity.
Defined.

(** * Properties of planner.py *)

(** ** The goal sampler of [make_gripper_approach] *)

Section sampler.

Context {W : Type} (h : server W).

Lemma run_bind {A B} (p : prog A) (f : A → prog B) (w : W) :
  run h (p ≫= f) w
  = match run h p w with
    | (Ok a, w', log) =>
        let '(r, w'', log') := run h (f a) w' in (r, w'', log ++ log')
    | (Err e, w', log) => (Err e, w', log)
    end.
Proof.
  revert w. induction p as [a|e|X c k IH]; intros w; simpl.
  - by destruct (run h (f a) w) as [[r w'] log].
  - done.
  - destruct (h X c w) as [x w1].
    change (prog_bind_fix f (k x)) with (k x ≫= f). rewrite IH.
    destruct (run h (k x) w1) as [[[a|e] w2] log]; [|done].
    by destruct (run h (f a) w2) as [[r w3] log'].
Qed.

Lemma draws_cons e log :
  draws (e :: log) = (if is_draw e then 1 else 0) + draws log.
Proof. unfold draws. rewrite filter_cons. by destruct (is_draw e). Qed.

Lemma accepts_cons e log :
  accepts (e :: log) = (if is_accept e then 1 else 0) + accepts log.
Proof. unfold accepts. rewrite filter_cons. by destruct (is_accept e). Qed.

Lemma run_bind_fix {A B} (p : prog A) (f : A → prog B) (w : W) :
  run h (prog_bind_fix f p) w
  = match run h p w with
    | (Ok a, w', log) =>
        let '(r, w'', log') := run h (f a) w' in (r, w'', log ++ log')
    | (Err e, w', log) => (Err e, w', log)
    end.
Proof. apply run_bind. Qed.

(** The loop always runs to its end: it makes one draw per round and
    appends one pair per accepted direct path. *)
Lemma sample_goals_loop_run gripperFullname q_init n q_goals w :
  ∃ accepted w' log,
    run h (sample_goals_loop gripperFullname q_init n q_goals) w
    = (Ok (q_goals ++ accepted), w', log) ∧
    draws log = n ∧ length accepted = accepts log ∧ accepts log ≤ n.
Proof.
  revert q_goals w. induction n as [|n IH]; intros q_goals w.
  { exists [], w, []. by rewrite app_nil_r. }
  cbn [sample_goals_loop]. cbn -[sample_goals_loop].
  next_call h. next_call h. destruct x0 as [[res_pre q_pre] error_pre].
  cbn -[sample_goals_loop].
  next_call h. destruct x0 as [[res_grasp q_grasp] error_grasp].
  destruct (res_pre && res_grasp); cbn -[sample_goals_loop].
  - next_call h. destruct x0 as [[res_path pathId] error_path].
    destruct res_path; cbn -[sample_goals_loop].
    + next_call h.
      destruct (IH (q_goals ++ [(q_pre, q_grasp)]) w4)
        as (acc & w' & log & -> & Hd & Hlen & Hle).
      eexists ((q_pre, q_grasp) :: acc), w', _.
      rewrite <- app_assoc. split; [done|].
      rewrite !draws_cons, !accepts_cons. simpl. lia.
    + destruct (IH q_goals w3) as (acc & w' & log & -> & Hd & Hlen & Hle).
      eexists acc, w', _. split; [done|].
      rewrite !draws_cons, !accepts_cons. simpl. lia.
  - destruct (IH q_goals w2) as (acc & w' & log & -> & Hd & Hlen & Hle).
    eexists acc, w', _. split; [done|].
    rewrite !draws_cons, !accepts_cons. simpl. lia.
Qed.

Lemma generate_goal_configurations_run gripperFullname q_init w :
  ∃ q_goals w' log,
    run h (sample_goals_loop gripperFullname q_init 100 []) w
    = (Ok q_goals, w', log) ∧
    run h (generate_goal_configurations gripperFullname q_init) w
    = (if bool_decide (0 < length q_goals) then Ok q_goals
       else Err (AssertionError NoGoalConfigurationFound), w', log) ∧
    draws log = 100 ∧ length q_goals = accepts log ∧ accepts log ≤ 100.
Proof.
  destruct (sample_goals_loop_run gripperFullname q_init 100 [] w)
    as (q_goals & w' & log & Hrun & Hd & Hlen & Hle).
  exists q_goals, w', log. split_and!; [done| |done..].
  unfold generate_goal_configurations. rewrite run_bind, Hrun. simpl.
  case_bool_decide; simpl; by rewrite app_nil_r.
Qed.

End sampler.

(** C6, as the code has it.  In every run in which no candidate pair
    passes all three checks, the pool is empty after the 100 draws and
    [make_gripper_approach] raises the assertion "No goal configuration
    found". *)
Theorem sampler_empty_pool_raises {W : Type} (h : server W) (w : W)
    (gripperFullname : string) (q_init : config) :
  accepts (run h (generate_goal_configurations gripperFullname q_init) w).2
  = 0 →
  (run h (sample_goals_loop gripperFullname q_init 100 []) w).1.1 = Ok [] ∧
  (run h (generate_goal_configurations gripperFullname q_init) w).1.1
  = Err (AssertionError NoGoalConfigurationFound).
Proof.
  destruct (generate_goal_configurations_run h gripperFullname q_init w)
    as (q_goals & w' & log & -> & -> & _ & Hlen & _).
  simpl. intros Hacc. rewrite Hacc in Hlen.
  destruct q_goals; [done|]. simplify_eq/=.
Qed.

Lemma sampler_empty_pool_raises_witness :
  (run direct_path_fails (sample_goals_loop "gripper" [] 100 []) ()).1.1
  = Ok [] ∧
  (run direct_path_fails (generate_goal_configurations "gripper" []) ()).1.1
  = Err (AssertionError NoGoalConfigurationFound).
Proof.
  apply (sampler_empty_pool_raises direct_path_fails () "gripper" []).
  vm_compute. reflexivity.
Defined.

(** C6, counterexample: on a server whose direct-connection check fails on
    every draw the sampler does not return a pool, empty or not. *)
Lemma sampler_empty_pool_counterexample :
  accepts
    (run direct_path_fails (generate_goal_configurations "gripper" []) ()).2
  = 0 ∧
  (run direct_path_fails (generate_goal_configurations "gripper" []) ()).1.1
  = Err (AssertionError NoGoalConfigurationFound) ∧
  (run direct_path_fails (generate_goal_configurations "gripper" []) ()).1.1
  ≠ Ok [].
Proof. split_and!; vm_compute; (reflexivity || discriminate). Qed.

(** C7, as the code has it.  In every run the sampler makes exactly 100
    draws, the whole budget, whatever the number of pairs accepted on the
    way; the pool holds one pair per accepted direct path, at most 100. *)
Theorem sampler_draws_whole_budget {W : Type} (h : server W) (w : W)
    (gripperFullname : string) (q_init : config) :
  draws (run h (generate_goal_configurations gripperFullname q_init) w).2
  = 100 ∧
  ∃ pool,
    (run h (sample_goals_loop gripperFullname q_init 100 []) w).1.1 = Ok pool ∧
    length pool
    = accepts (run h (sample_goals_loop gripperFullname q_init 100 []) w).2 ∧
    length pool ≤ 100.
Proof.
  destruct (generate_goal_configurations_run h gripperFullname q_init w)
    as (q_goals & w' & log & -> & -> & Hd & Hlen & Hle).
  simpl. split; [done|]. exists q_goals. split_and!; [done..|lia].
Qed.

(** C7, counterexample: on a server that accepts every pair the sampler
    makes 99 more draws after the first pair has been accepted, and ends
    with 100 pairs. *)
Lemma sampler_early_stop_counterexample :
  draws_after 1
    (run always_accepts (generate_goal_configurations "gripper" []) ()).2 0
  = 99 ∧
  accepts (run always_accepts (generate_goal_configurations "gripper" []) ()).2
  = 100.
Proof. split; vm_compute; reflexivity. Qed.

(** ** Splitting the solved path in [make_pick_and_place] *)

Section split.

Context (compare_configurations : config → config → result bool).
Context (pose_pick pose_place : config).

Local Abbreviation scan := (scan_waypoints compare_configurations pose_pick pose_place).
Local Abbreviation is_pick := (matches compare_configurations pose_pick).
Local Abbreviation not_place := (mismatches compare_configurations pose_place).
Local Abbreviation comparable_wps :=
  (comparable compare_configurations pose_pick pose_place).

Lemma last_index_unique P wps i j :
  last_index P wps i → last_index P wps j → i = j.
Proof.
  intros [(qi & Hi & HPi) Hlasti] [(qj & Hj & HPj) Hlastj].
  destruct (Nat.lt_trichotomy i j) as [Hlt|[->|Hlt]]; [|done|].
  - by destruct (Hlasti j qj Hlt Hj).
  - by destruct (Hlastj i qi Hlt Hi).
Qed.

Lemma last_index_cons_S P q wps i :
  last_index P wps i → last_index P (q :: wps) (S i).
Proof.
  intros [Hi Hlast]. split; [done|].
  intros [|j] x Hlt Hj; [lia|]. apply (Hlast j x); [lia|done].
Qed.

Lemma last_index_cons_0 P q wps :
  P q → (∀ x, x ∈ wps → ¬ P x) → last_index P (q :: wps) 0.
Proof.
  intros HP Hnone. split; [by exists q|].
  intros [|j] x Hlt Hj; [lia|]. apply Hnone.
  by eapply list_elem_of_lookup_2.
Qed.

(** The loop, started at index [i] with the boundaries found so far. *)
Lemma scan_waypoints_from wps i pick_index place_index :
  comparable_wps wps →
  ∃ pick_index' place_index',
    scan wps i pick_index place_index = Ok (pick_index', place_index') ∧
    ((∃ k, last_index is_pick wps k ∧ pick_index' = Some (i + k)) ∨
     ((∀ q, q ∈ wps → ¬ is_pick q) ∧ pick_index' = pick_index)) ∧
    ((∃ k, last_index not_place wps k ∧ place_index' = Some (i + k + 1)) ∨
     ((∀ q, q ∈ wps → ¬ not_place q) ∧ place_index' = place_index)).
Proof.
  revert i pick_index place_index.
  induction wps as [|q wps IH]; intros i pick_index place_index Hcmp.
  { exists pick_index, place_index. split_and!; [done|right..];
      (split; [|done]); by intros q ?%elem_of_nil. }
  destruct (Hcmp q) as [[b1 Hb1] [b2 Hb2]]; [by left|].
  cbn [scan_waypoints]. rewrite Hb1. cbn [mbind result_bind].
  rewrite Hb2. cbn [mbind result_bind].
  destruct (IH (S i) (if b1 then Some i else pick_index)
               (if negb b2 then Some (i + 1) else place_index))
    as (pick' & place' & -> & Hpick & Hplace).
  { intros x Hx. apply Hcmp. by right. }
  exists pick', place'. split_and!; [done| |].
  - destruct Hpick as [(k & Hk & ->)|[Hnone ->]].
    + left. exists (S k). split; [by apply last_index_cons_S|f_equal; lia].
    + destruct b1.
      * left. exists 0. split; [by apply last_index_cons_0|f_equal; lia].
      * right. split; [|done].
        intros x [->|Hx]%elem_of_cons; [|by apply Hnone].
        unfold matches. by rewrite Hb1.
  - destruct Hplace as [(k & Hk & ->)|[Hnone ->]].
    + left. exists (S k). split; [by apply last_index_cons_S|f_equal; lia].
    + destruct b2; simpl.
      * right. split; [|done].
        intros x [->|Hx]%elem_of_cons; [|by apply Hnone].
        unfold mismatches. by rewrite Hb2.
      * left. exists 0. split; [by apply last_index_cons_0|f_equal; lia].
Qed.

Lemma scan_waypoints_last wps :
  comparable_wps wps →
  ∃ pick_index place_index,
    scan wps 0 None None = Ok (pick_index, place_index) ∧
    (∀ i, pick_index = Some i ↔ last_index is_pick wps i) ∧
    (∀ i, place_index = Some (i + 1) ↔ last_index not_place wps i) ∧
    place_index ≠ Some 0.
Proof.
  intros Hcmp.
  destruct (scan_waypoints_from wps 0 None None Hcmp)
    as (pick' & place' & Hscan & Hpick & Hplace).
  exists pick', place'. split_and!; [done| | |].
  - intros i. destruct Hpick as [(k & Hk & ->)|[Hnone ->]]; simpl.
    + split; [by intros [= <-]|].
      intros Hi. by rewrite (last_index_unique _ _ _ _ Hi Hk).
    + split; [done|]. intros [(q & Hq & HP) _].
      destruct (Hnone q); [by eapply list_elem_of_lookup_2|done].
  - intros i. destruct Hplace as [(k & Hk & ->)|[Hnone ->]]; simpl.
    + split; [intros [= Hik]; by replace i with k by lia|].
      intros Hi. by rewrite (last_index_unique _ _ _ _ Hi Hk).
    + split; [done|]. intros [(q & Hq & HP) _].
      destruct (Hnone q); [by eapply list_elem_of_lookup_2|done].
  - destruct Hplace as [(k & Hk & ->)|[Hnone ->]]; [|done].
    intros [=]. lia.
Qed.

Lemma pick_slice_range wps p :
  holds_range (py_slice wps None (Some (p + 1))) wps 0 p.
Proof.
  intros k. unfold py_slice, default. rewrite lookup_drop, lookup_take.
  repeat case_decide; try done; exfalso; lia.
Qed.

Lemma place_slice_range wps p b :
  holds_range (py_slice wps (Some p) (Some (b + 1))) wps p b.
Proof.
  intros k. unfold py_slice. change (default 0 (Some p)) with p.
  rewrite lookup_drop, lookup_take.
  repeat case_decide; try done; exfalso; lia.
Qed.

Lemma home_slice_range wps b :
  holds_range (py_slice wps (Some b) None) wps b (length wps - 1).
Proof.
  intros k. unfold py_slice. change (default 0 (Some b)) with b.
  rewrite lookup_drop.
  case_decide; [done|]. apply lookup_ge_None_2. lia.
Qed.

Lemma last_index_lt P wps i : last_index P wps i → i < length wps.
Proof. intros [(q & Hq & _) _]. by eapply lookup_lt_Some. Qed.

Lemma split_path_unfold wps pick_index place_index :
  scan wps 0 None None = Ok (pick_index, place_index) →
  split_path compare_configurations pose_pick pose_place wps
  = (stop ← lift (py_add1 pick_index);
     pick_pathId ← _create_path (py_slice wps None (Some stop));
     stop ← lift (py_add1 place_index);
     place_pathId ← _create_path (py_slice wps pick_index (Some stop));
     home_pathId ← _create_path (py_slice wps place_index None);
     Ret (pick_pathId, place_pathId, home_pathId)).
Proof. intros Hscan. unfold split_path. by rewrite Hscan. Qed.

End split.

Section create_path.

Context {W : Type} (h : server W).

Lemma append_direct_paths_run pathId qs w :
  ∃ w' log, run h (append_direct_paths pathId qs) w = (Ok (), w', log).
Proof.
  revert w. induction qs as [|q qs IH]; intros w; [by eexists _, _|].
  simpl. next_call h.
  destruct (IH w0) as (w' & log & ->). by eexists _, _.
Qed.

Lemma _create_path_short waypoints :
  length waypoints ≤ 1 → _create_path waypoints = Raise IndexError.
Proof. destruct waypoints as [|q0 [|q1 qs]]; simpl; [done..|lia]. Qed.

Lemma _create_path_run waypoints w :
  2 ≤ length waypoints →
  ∃ pathId w' log, run h (_create_path waypoints) w = (Ok pathId, w', log).
Proof.
  destruct waypoints as [|q0 [|q1 qs]]; simpl; [lia..|]. intros _.
  next_call h. destruct x as [[res pathId] msg].
  rewrite run_bind_fix, drop_0.
  destruct (append_direct_paths_run pathId qs w0) as (w' & log & ->).
  simpl. by eexists _, _, _.
Qed.

(** Whether one [_create_path] after the other gets through depends on the
    lengths of the waypoint lists alone. *)
Lemma _create_path_bind {A} waypoints (k : nat → prog A) w :
  (length waypoints ≤ 1 ∧
   (run h (_create_path waypoints ≫= k) w).1.1 = Err IndexError) ∨
  (2 ≤ length waypoints ∧
   ∃ pathId w', (run h (_create_path waypoints ≫= k) w).1.1
                = (run h (k pathId) w').1.1).
Proof.
  destruct (decide (length waypoints ≤ 1)) as [Hshort|Hlong].
  - left. split; [done|]. by rewrite _create_path_short.
  - right. split; [lia|]. rewrite run_bind.
    destruct (_create_path_run waypoints w) as (pathId & w' & log & ->); [lia|].
    exists pathId, w'. by destruct (run h (k pathId) w') as [[r w''] log'].
Qed.

End create_path.

(** C3. On every waypoint sequence that [compare_configurations] accepts,
    the loop leaves in [pick_index] the last index whose target-pose slice
    matches the pick pose and in [place_index] one past the last index whose
    slice does not match the place pose ([None] where there is no such
    index); with both boundaries found, the three sub paths are built from
    the waypoints at indices [0 .. pick_index],
    [pick_index .. place_index] and [place_index .. end]. *)
Theorem split_path_boundaries
    (compare_configurations : config → config → result bool)
    (pose_pick pose_place : config) (wps : list config) :
  comparable compare_configurations pose_pick pose_place wps →
  ∃ pick_index place_index,
    scan_waypoints compare_configurations pose_pick pose_place wps 0 None None
    = Ok (pick_index, place_index) ∧
    (∀ i, pick_index = Some i
          ↔ last_index (matches compare_configurations pose_pick) wps i) ∧
    (∀ i, place_index = Some (i + 1)
          ↔ last_index (mismatches compare_configurations pose_place) wps i) ∧
    place_index ≠ Some 0 ∧
    ∀ p b, pick_index = Some p → place_index = Some b →
      split_path compare_configurations pose_pick pose_place wps
      = (pick_pathId ← _create_path (py_slice wps None (Some (p + 1)));
         place_pathId ← _create_path (py_slice wps (Some p) (Some (b + 1)));
         home_pathId ← _create_path (py_slice wps (Some b) None);
         Ret (pick_pathId, place_pathId, home_pathId)) ∧
      holds_range (py_slice wps None (Some (p + 1))) wps 0 p ∧
      holds_range (py_slice wps (Some p) (Some (b + 1))) wps p b ∧
      holds_range (py_slice wps (Some b) None) wps b (length wps - 1).
Proof.
  intros Hcmp.
  destruct (scan_waypoints_last _ _ _ wps Hcmp)
    as (pick_index & place_index & Hscan & Hpick & Hplace & Hnz).
  exists pick_index, place_index. split_and!; [done..|].
  intros p b -> ->. split_and!.
  - by rewrite (split_path_unfold _ _ _ _ _ _ Hscan).
  - apply pick_slice_range.
  - apply place_slice_range.
  - apply home_slice_range.
Qed.

Lemma scenario3_comparable :
  comparable (compare_configurations_spec (1 # 10))
    scenario3_pick scenario3_place scenario3_wps.
Proof.
  intros q Hq. unfold scenario3_wps in Hq.
  repeat (apply elem_of_cons in Hq as [->|Hq]);
    [split; eexists; vm_compute; reflexivity..|].
  by apply elem_of_nil in Hq.
Qed.

Lemma split_path_boundaries_witness :
  ∃ pick_index place_index,
    scan_waypoints (compare_configurations_spec (1 # 10))
      scenario3_pick scenario3_place scenario3_wps 0 None None
    = Ok (pick_index, place_index) ∧
    (∀ i, pick_index = Some i
          ↔ last_index
              (matches (compare_configurations_spec (1 # 10)) scenario3_pick)
              scenario3_wps i) ∧
    (∀ i, place_index = Some (i + 1)
          ↔ last_index
              (mismatches (compare_configurations_spec (1 # 10))
                 scenario3_place)
              scenario3_wps i) ∧
    place_index ≠ Some 0.
Proof.
  destruct (split_path_boundaries (compare_configurations_spec (1 # 10))
              scenario3_pick scenario3_place scenario3_wps
              scenario3_comparable)
    as (pick_index & place_index & Hscan & Hpick & Hplace & Hnz & _).
  exists pick_index, place_index. split_and!; assumption.
Defined.

(** C4, as the code has it.  For five waypoints of which the first two
    match the pick pose, the next two match neither pose and the last
    matches the place pose, the pick boundary is 1 and the place boundary
    is 4: the sub paths are built from the waypoints at indices [0, 1],
    [1, 4] and [4, 4]. *)
Theorem scenario3_boundaries
    (compare_configurations : config → config → result bool)
    (pose_pick pose_place w0 w1 w2 w3 w4 : config) (b0 b1 : bool) :
  matches compare_configurations pose_pick w0 →
  matches compare_configurations pose_pick w1 →
  mismatches compare_configurations pose_pick w2 →
  mismatches compare_configurations pose_pick w3 →
  mismatches compare_configurations pose_pick w4 →
  compare_configurations (py_suffix 7 w0) pose_place = Ok b0 →
  compare_configurations (py_suffix 7 w1) pose_place = Ok b1 →
  mismatches compare_configurations pose_place w2 →
  mismatches compare_configurations pose_place w3 →
  matches compare_configurations pose_place w4 →
  scan_waypoints compare_configurations pose_pick pose_place
    [w0; w1; w2; w3; w4] 0 None None = Ok (Some 1, Some 4) ∧
  split_path compare_configurations pose_pick pose_place [w0; w1; w2; w3; w4]
  = (pick_pathId ← _create_path [w0; w1];
     place_pathId ← _create_path [w1; w2; w3; w4];
     home_pathId ← _create_path [w4];
     Ret (pick_pathId, place_pathId, home_pathId)).
Proof.
  unfold matches, mismatches.
  intros Hp0 Hp1 Hp2 Hp3 Hp4 Hl0 Hl1 Hl2 Hl3 Hl4.
  assert (scan_waypoints compare_configurations pose_pick pose_place
            [w0; w1; w2; w3; w4] 0 None None = Ok (Some 1, Some 4)) as Hscan.
  { cbn [scan_waypoints].
    rewrite Hp0, Hp1, Hp2, Hp3, Hp4, Hl0, Hl1, Hl2, Hl3, Hl4. done. }
  split; [done|]. by rewrite (split_path_unfold _ _ _ _ _ _ Hscan).
Qed.

Lemma scenario3_boundaries_witness :
  scan_waypoints (compare_configurations_spec (1 # 10))
    scenario3_pick scenario3_place scenario3_wps 0 None None
  = Ok (Some 1, Some 4) ∧
  split_path (compare_configurations_spec (1 # 10))
    scenario3_pick scenario3_place scenario3_wps
  = (pick_pathId ← _create_path [scenario3_pick; scenario3_pick];
     place_pathId ← _create_path [scenario3_pick; scenario3_transit;
                                   scenario3_transit; scenario3_place];
     home_pathId ← _create_path [scenario3_place];
     Ret (pick_pathId, place_pathId, home_pathId)).
Proof.
  apply (scenario3_boundaries (compare_configurations_spec (1 # 10))
           scenario3_pick scenario3_place
           scenario3_pick scenario3_pick scenario3_transit scenario3_transit
           scenario3_place false false); vm_compute; reflexivity.
Defined.

(** C4, counterexample: on the waypoints of scenario 3 the place boundary
    is 4, not 3; the place slice is not the waypoints 1 to 3 and the home
    slice not the waypoints 3 to 4; the home slice being a single waypoint,
    no ranges are returned at all. *)
Lemma scenario3_counterexample :
  scan_waypoints (compare_configurations_spec (1 # 10))
    scenario3_pick scenario3_place scenario3_wps 0 None None
  = Ok (Some 1, Some 4) ∧
  py_slice scenario3_wps (Some 1) (Some (4 + 1))
  ≠ [scenario3_pick; scenario3_transit; scenario3_transit] ∧
  py_slice scenario3_wps (Some 4) None ≠ [scenario3_transit; scenario3_place] ∧
  (run path_store
     (split_path (compare_configurations_spec (1 # 10))
        scenario3_pick scenario3_place scenario3_wps) []).1.1
  = Err IndexError.
Proof. split_and!; vm_compute; (reflexivity || discriminate). Qed.

Section degenerate.

Context (compare_configurations : config → config → result bool).
Context (pose_pick pose_place : config).
Context {W : Type} (h : server W).

(** With both boundaries found, splitting fails as soon as one of the
    three slices has fewer than two waypoints. *)
Lemma split_path_short_slice wps p b w :
  scan_waypoints compare_configurations pose_pick pose_place wps 0 None None
  = Ok (Some p, Some b) →
  length (py_slice wps None (Some (p + 1))) ≤ 1 ∨
  length (py_slice wps (Some p) (Some (b + 1))) ≤ 1 ∨
  length (py_slice wps (Some b) None) ≤ 1 →
  (run h (split_path compare_configurations pose_pick pose_place wps) w).1.1
  = Err IndexError.
Proof.
  intros Hscan Hshort. rewrite (split_path_unfold _ _ _ _ _ _ Hscan).
  cbn [py_add1 lift mbind prog_bind prog_bind_fix].
  destruct (_create_path_bind h (py_slice wps None (Some (p + 1)))
              (λ pick_pathId,
                 place_pathId ←
                   _create_path (py_slice wps (Some p) (Some (b + 1)));
                 home_pathId ← _create_path (py_slice wps (Some b) None);
                 Ret (pick_pathId, place_pathId, home_pathId)) w)
    as [[_ Herr]|[Hlen1 (pick_pathId & w1 & Hrun1)]]; [done|].
  etrans; [exact Hrun1|]. clear Hrun1.
  destruct (_create_path_bind h (py_slice wps (Some p) (Some (b + 1)))
              (λ place_pathId,
                 home_pathId ← _create_path (py_slice wps (Some b) None);
                 Ret (pick_pathId, place_pathId, home_pathId)) w1)
    as [[_ Herr]|[Hlen2 (place_pathId & w2 & Hrun2)]]; [done|].
  etrans; [exact Hrun2|]. clear Hrun2.
  destruct (_create_path_bind h (py_slice wps (Some b) None)
              (λ home_pathId, Ret (pick_pathId, place_pathId, home_pathId))
              w2)
    as [[_ Herr]|[Hlen3 _]]; [done|lia].
Qed.

(** With the pick boundary found and no place boundary, splitting fails:
    on the pick slice if the boundary is index 0, on [None + 1] after it
    otherwise. *)
Lemma split_path_no_place_boundary wps p w :
  p < length wps →
  scan_waypoints compare_configurations pose_pick pose_place wps 0 None None
  = Ok (Some p, None) →
  (run h (split_path compare_configurations pose_pick pose_place wps) w).1.1
  = Err (if decide (p = 0) then IndexError else TypeError).
Proof.
  intros Hp Hscan. rewrite (split_path_unfold _ _ _ _ _ _ Hscan).
  cbn [py_add1 lift mbind prog_bind prog_bind_fix].
  assert (length (py_slice wps None (Some (p + 1))) = p + 1) as Hlen.
  { unfold py_slice. simpl default. rewrite drop_0, length_take. lia. }
  destruct (_create_path_bind h (py_slice wps None (Some (p + 1)))
              (λ _, Raise TypeError : prog (nat * nat * nat)) w)
    as [[Hshort Herr]|[Hlong (pick_pathId & w1 & Hrun1)]].
  - rewrite decide_True by lia. exact Herr.
  - rewrite decide_False by lia. etrans; [exact Hrun1|]. done.
Qed.

End degenerate.

(** C5, the code at the case the claim describes.  When every waypoint
    matches the place pose and some waypoint matches the pick pose, the loop
    never assigns [place_index]; splitting then raises: a [TypeError] on
    [place_index+1] once the pick path is built, or an [IndexError] already
    on the pick path if the last pick match is index 0. *)
Theorem split_path_all_place_raises
    (compare_configurations : config → config → result bool)
    (pose_pick pose_place : config) (wps : list config) :
  comparable compare_configurations pose_pick pose_place wps →
  (∀ q, q ∈ wps → matches compare_configurations pose_place q) →
  (∃ q, q ∈ wps ∧ matches compare_configurations pose_pick q) →
  ∃ p, last_index (matches compare_configurations pose_pick) wps p ∧
       scan_waypoints compare_configurations pose_pick pose_place wps 0
         None None = Ok (Some p, None) ∧
       ∀ W (h : server W) (w : W),
         (run h (split_path compare_configurations pose_pick pose_place wps)
            w).1.1
         = Err (if decide (p = 0) then IndexError else TypeError).
Proof.
  intros Hcmp Hplace (q & Hq & Hpick).
  destruct (scan_waypoints_from compare_configurations pose_pick pose_place
              wps 0 None None Hcmp)
    as (pick' & place' & Hscan & Hpick' & Hplace').
  destruct Hpick' as [(p & Hp & ->)|[Hnone _]]; [|by destruct (Hnone q)].
  destruct Hplace' as [(k & [(x & Hx & Hmis) _] & _)|[_ ->]].
  { apply list_elem_of_lookup_2, Hplace in Hx.
    unfold matches, mismatches in *. congruence. }
  exists p. split_and!; [done..|].
  intros W h w. apply split_path_no_place_boundary; [|done].
  by eapply last_index_lt.
Qed.

Lemma split_path_all_place_raises_witness :
  ∃ p, last_index (matches (compare_configurations_spec (1 # 10))
                     scenario3_pick)
         [scenario3_pick; scenario3_pick; scenario3_pick] p ∧
       scan_waypoints (compare_configurations_spec (1 # 10))
         scenario3_pick scenario3_pick
         [scenario3_pick; scenario3_pick; scenario3_pick] 0 None None
       = Ok (Some p, None) ∧
       ∀ W (h : server W) (w : W),
         (run h (split_path (compare_configurations_spec (1 # 10))
                   scenario3_pick scenario3_pick
                   [scenario3_pick; scenario3_pick; scenario3_pick]) w).1.1
         = Err (if decide (p = 0) then IndexError else TypeError).
Proof.
  apply (split_path_all_place_raises (compare_configurations_spec (1 # 10))
           scenario3_pick scenario3_pick
           [scenario3_pick; scenario3_pick; scenario3_pick]).
  - intros q Hq. repeat (apply elem_of_cons in Hq as [->|Hq]);
      [split; eexists; vm_compute; reflexivity..|].
    by apply elem_of_nil in Hq.
  - intros q Hq. repeat (apply elem_of_cons in Hq as [->|Hq]);
      [vm_compute; reflexivity..|].
    by apply elem_of_nil in Hq.
  - exists scenario3_pick. split; [by left|]. vm_compute. reflexivity.
Defined.

(** C10. [_create_path] on fewer than two waypoints raises [IndexError]
    before any call to the server; hence splitting raises [IndexError]
    whenever one of the three slices it computes holds a single waypoint,
    and in particular whenever the pick boundary is index 0. *)
Theorem _create_path_needs_two_waypoints
    (compare_configurations : config → config → result bool)
    (pose_pick pose_place : config) (wps : list config) :
  (∀ waypoints W (h : server W) (w : W),
     length waypoints ≤ 1 →
     run h (_create_path waypoints) w = (Err IndexError, w, [])) ∧
  (∀ p b W (h : server W) (w : W),
     scan_waypoints compare_configurations pose_pick pose_place wps 0
       None None = Ok (Some p, Some b) →
     length (py_slice wps None (Some (p + 1))) = 1 ∨
     length (py_slice wps (Some p) (Some (b + 1))) = 1 ∨
     length (py_slice wps (Some b) None) = 1 →
     (run h (split_path compare_configurations pose_pick pose_place wps)
        w).1.1 = Err IndexError) ∧
  (∀ place_index W (h : server W) (w : W),
     scan_waypoints compare_configurations pose_pick pose_place wps 0
       None None = Ok (Some 0, place_index) →
     (run h (split_path compare_configurations pose_pick pose_place wps)
        w).1.1 = Err IndexError).
Proof.
  split_and!.
  - intros waypoints W h w Hlen. by rewrite _create_path_short.
  - intros p b W h w Hscan Hone.
    apply (split_path_short_slice _ _ _ _ _ p b); [done|lia].
  - intros place_index W h w Hscan.
    rewrite (split_path_unfold _ _ _ _ _ _ Hscan).
    cbn [py_add1 lift mbind prog_bind prog_bind_fix].
    match goal with
    | |- (run h (_ ≫= ?k) w).1.1 = _ =>
        destruct (_create_path_bind h (py_slice wps None (Some (0 + 1))) k w)
          as [[_ Herr]|[Hlong _]]
    end; [exact Herr|].
    unfold py_slice in Hlong. simpl default in Hlong.
    rewrite drop_0, length_take in Hlong. lia.
Qed.

Lemma _create_path_needs_two_waypoints_witness :
  run path_store (_create_path [scenario3_pick]) []
  = (Err IndexError, [], []) ∧
  (run path_store
     (split_path (compare_configurations_spec (1 # 10))
        scenario3_pick scenario3_place scenario3_wps) []).1.1
  = Err IndexError ∧
  (run path_store
     (split_path (compare_configurations_spec (1 # 10))
        scenario3_pick scenario3_place
        [scenario3_pick; scenario3_transit; scenario3_place; scenario3_place])
     []).1.1
  = Err IndexError.
Proof.
  split_and!.
  - apply (proj1 (_create_path_needs_two_waypoints
                    (compare_configurations_spec (1 # 10))
                    scenario3_pick scenario3_place scenario3_wps)).
    simpl. lia.
  - apply (proj1 (proj2 (_create_path_needs_two_waypoints
                           (compare_configurations_spec (1 # 10))
                           scenario3_pick scenario3_place scenario3_wps))
             1 4).
    + vm_compute. reflexivity.
    + right. right. vm_compute. reflexivity.
  - apply (proj2 (proj2 (_create_path_needs_two_waypoints
                           (compare_configurations_spec (1 # 10))
                           scenario3_pick scenario3_place
                           [scenario3_pick; scenario3_transit;
                            scenario3_place; scenario3_place]))
             (Some 2)).
    vm_compute. reflexivity.
Defined.

(** A path as the planner returns them, with three waypoints at the place
    pose at its end, is split into three sub paths: the server is asked for
    the paths over the waypoints 0-1, 1-3 and 3-5. *)
Example split_path_succeeds :
  run path_store
    (split_path (compare_configurations_spec (1 # 10))
       scenario3_pick scenario3_place
       [scenario3_pick; scenario3_pick; scenario3_transit;
        scenario3_place; scenario3_place; scenario3_place]) []
  = (Ok (0, 1, 2),
     [[scenario3_pick; scenario3_pick];
      [scenario3_pick; scenario3_transit; scenario3_place];
      [scenario3_place; scenario3_place; scenario3_place]],
     [Entry (directPath scenario3_pick scenario3_pick false)
        (true, 0, EmptyString);
      Entry (directPath scenario3_pick scenario3_transit false)
        (true, 1, EmptyString);
      Entry (appendDirectPath 1 scenario3_place false) ();
      Entry (directPath scenario3_place scenario3_place false)
        (true, 2, EmptyString);
      Entry (appendDirectPath 2 scenario3_place false) ()]).
Proof. vm_compute. reflexivity. Qed.

(** * Further properties of robot.py *)

(** ** Reordering a vector with a table *)

Lemma reorder_loop_omap {A} (table : list nat) (x : list A) range acc :
  (∀ i, i ∈ range → is_Some (table !! i ≫= λ j, x !! j)) →
  reorder_loop table x range acc
  = Ok (acc ++ omap (λ i, table !! i ≫= λ j, x !! j) range).
Proof.
  revert acc. induction range as [|i range IH]; intros acc Hall; simpl.
  - by rewrite app_nil_r.
  - destruct (Hall i) as [xj Hxj]; [by left|].
    rewrite Hxj. unfold py_getitem.
    destruct (table !! i) as [j|]; simpl in *; [|done].
    rewrite Hxj. simpl. rewrite IH, <- app_assoc; [done|].
    intros k Hk. apply Hall. by right.
Qed.

Lemma reorder_loop_Ok_inv {A} (table : list nat) (x : list A) range acc out :
  reorder_loop table x range acc = Ok out →
  ∀ i, i ∈ range → is_Some (table !! i ≫= λ j, x !! j).
Proof.
  revert acc. induction range as [|i range IH]; intros acc Hrun k Hk.
  { by apply elem_of_nil in Hk. }
  simpl in Hrun. unfold py_getitem in Hrun.
  destruct (table !! i) as [j|] eqn:Hi; simpl in Hrun; [|done].
  destruct (x !! j) as [xj|] eqn:Hj; simpl in Hrun; [|done].
  apply elem_of_cons in Hk as [->|Hk]; [|by eapply IH].
  rewrite Hi. simpl. by rewrite Hj.
Qed.

Lemma omap_lookup_seq_app {A} (l1 l2 : list A) :
  omap (λ i, (l1 ++ l2) !! i) (seq (length l1) (length l2)) = l2.
Proof.
  revert l1. induction l2 as [|a l2 IH]; intros l1; [done|].
  simpl. rewrite list_lookup_middle by done. simpl. f_equal.
  replace (S (length l1)) with (length (l1 ++ [a]))
    by (rewrite length_app; simpl; lia).
  rewrite (cons_middle a l1 l2), app_assoc. apply IH.
Qed.

Lemma omap_lookup_seq {A} (l : list A) :
  omap (λ i, l !! i) (seq 0 (length l)) = l.
Proof. apply (omap_lookup_seq_app [] l). Qed.

Lemma omap_omap_bind {A B C} (f : A → option B) (g : B → option C)
    (l : list A) :
  omap g (omap f l) = omap (λ a, f a ≫= g) l.
Proof.
  induction l as [|a l IH]; [done|]. simpl.
  destruct (f a) as [b|]; simpl; [|apply IH].
  destruct (g b); simpl; [f_equal|]; apply IH.
Qed.

Lemma reorder_Ok_inv {A} (table : list nat) (x : list A) y :
  reorder table x = Ok y →
  ∀ i, i < length x → ∃ j, table !! i = Some j ∧ j < length x.
Proof.
  intros Hy i Hi.
  destruct (reorder_loop_Ok_inv _ _ _ _ _ Hy i) as [xj Hxj].
  { apply elem_of_seq. lia. }
  destruct (table !! i) as [j|]; simpl in Hxj; [|done].
  exists j. split; [done|]. by eapply lookup_lt_Some.
Qed.

Lemma omap_seq_lookup {B} (F : nat → option B) n :
  (∀ i, i < n → is_Some (F i)) →
  length (omap F (seq 0 n)) = n ∧
  ∀ i, i < n → omap F (seq 0 n) !! i = F i.
Proof.
  induction n as [|n IHn]; intros Hsome; [split; [done|lia]|].
  destruct IHn as [Hlen Hlook]; [intros i Hi; apply Hsome; lia|].
  rewrite seq_S, omap_app. simpl.
  destruct (Hsome n) as [xn Hxn]; [lia|]. rewrite Hxn. simpl.
  rewrite length_app, Hlen. split; [simpl; lia|].
  intros i Hi. destruct (decide (i = n)) as [->|Hne].
  - by rewrite lookup_app_r, Hlen, Nat.sub_diag by lia.
  - rewrite lookup_app_l by lia. apply Hlook. lia.
Qed.

Lemma reorder_Ok_lookup {A} (table : list nat) (x : list A) :
  (∀ i, i < length x → ∃ j, table !! i = Some j ∧ j < length x) →
  ∃ y, reorder table x = Ok y ∧ length y = length x ∧
       ∀ i j, i < length x → table !! i = Some j → y !! i = x !! j.
Proof.
  intros Hall.
  assert (∀ i, i < length x → is_Some (table !! i ≫= λ j, x !! j)) as Hsome.
  { intros i Hi. destruct (Hall i Hi) as (j & -> & Hj). simpl.
    by apply lookup_lt_is_Some_2. }
  destruct (omap_seq_lookup _ _ Hsome) as [Hlen Hlook].
  eexists. split_and!.
  - unfold reorder. rewrite reorder_loop_omap; [done|].
    intros i [_ Hi]%elem_of_seq. apply Hsome. lia.
  - done.
  - intros i j Hi Hj. simpl. by rewrite Hlook, Hj.
Qed.

(** X1. Reordering a vector [x] succeeds exactly when the first [len(x)]
    entries of the table exist and are indices of [x]; it then returns a
    vector of the same length with [x[table[i]]] at [i].  A table longer
    than [x] is accepted; the only exception is [IndexError]. *)
Theorem reorder_Ok_iff {A} (table : list nat) (x : list A) :
  ((∃ y, reorder table x = Ok y)
   ↔ ∀ i, i < length x → ∃ j, table !! i = Some j ∧ j < length x) ∧
  (∀ y, reorder table x = Ok y →
        length y = length x ∧
        ∀ i j, i < length x → table !! i = Some j → y !! i = x !! j) ∧
  (∀ e, reorder table x = Err e → e = IndexError).
Proof.
  split_and!.
  - split; [intros [y Hy]; by eapply reorder_Ok_inv|].
    intros Hall. destruct (reorder_Ok_lookup table x Hall) as (y & Hy & _).
    eauto.
  - intros y Hy.
    destruct (reorder_Ok_lookup table x (reorder_Ok_inv _ _ _ Hy))
      as (y' & Hy' & Hlen & Hlook).
    rewrite Hy in Hy'. injection Hy' as <-. done.
  - intros e. apply reorder_loop_Err.
Qed.

Lemma reorder_Ok_iff_witness :
  ∃ y, reorder [2; 0; 1; 7] [10; 20; 30]%Q = Ok y.
Proof.
  apply (proj2 (proj1 (reorder_Ok_iff [2; 0; 1; 7] [10; 20; 30]%Q))).
  intros [|[|[|i]]] Hi; simpl in *; [eexists; split; [reflexivity|lia]..|lia].
Defined.

Lemma reorder_total {A} (table : list nat) (x : list A) :
  length table = length x →
  (∀ j, j ∈ table → j < length x) →
  reorder table x = Ok (omap (λ j, x !! j) table).
Proof.
  intros Hlen Hlt. unfold reorder. rewrite reorder_loop_omap.
  - simpl. by rewrite <- omap_omap_bind, <- Hlen, omap_lookup_seq.
  - intros i [_ Hi]%elem_of_seq.
    destruct (lookup_lt_is_Some_2 table i) as [j Hj]; [lia|].
    rewrite Hj. simpl. apply lookup_lt_is_Some_2, Hlt.
    by eapply list_elem_of_lookup_2.
Qed.

Lemma reorder_seq_Permutation {A} (table : list nat) (x : list A) :
  table ≡ₚ seq 0 (length x) →
  ∃ y, reorder table x = Ok y ∧ y ≡ₚ x.
Proof.
  intros Hperm. eexists. split.
  - apply reorder_total.
    + by rewrite Hperm, length_seq.
    + intros j. rewrite Hperm, elem_of_seq. lia.
  - by rewrite Hperm, omap_lookup_seq.
Qed.

(** X2. Reordering with a table that lists [0 .. len(x)-1] in some order
    returns a permutation of [x]: no scalar is lost or duplicated. *)
Theorem reorder_Permutation {A} (table : list nat) (x : list A) :
  table ≡ₚ seq 0 (length x) →
  ∃ y, reorder table x = Ok y ∧ y ≡ₚ x.
Proof.
  intros Hperm. exists (omap (λ j, x !! j) table). split.
  - apply reorder_total.
    + by rewrite Hperm, length_seq.
    + intros j Hj. rewrite Hperm in Hj. apply elem_of_seq in Hj. lia.
  - rewrite Hperm. by rewrite omap_lookup_seq.
Qed.

Lemma reorder_Permutation_witness :
  ∃ y, reorder [2; 0; 1] [10; 20; 30]%Q = Ok y ∧ y ≡ₚ [10; 20; 30]%Q.
Proof.
  apply (reorder_Permutation [2; 0; 1] [10; 20; 30]%Q).
  simpl. apply (Permutation_cons_append [0; 1] 2).
Defined.

(** X3. With two tables that are inverse to each other, reordering with
    one and then with the other gives the vector back. *)
Theorem reorder_round_trip {A} (f g : list nat) (x : list A) :
  inverse_on f g → inverse_on g f → length x = length f →
  ∃ y, reorder f x = Ok y ∧ reorder g y = Ok x.
Proof.
  intros [Hlen Hfg] [_ Hgf] Hx.
  destruct (reorder_Ok_lookup f x) as (y & Hy & Hleny & Hlooky).
  { intros i Hi. destruct (Hfg i) as (j & Hj & Hlt & _); [lia|].
    exists j. split; [done|lia]. }
  destruct (reorder_Ok_lookup g y) as (z & Hz & Hlenz & Hlookz).
  { intros j Hj. destruct (Hgf j) as (i & Hi & Hlt & _); [lia|].
    exists i. split; [done|lia]. }
  exists y. split; [done|]. rewrite Hz. f_equal. apply list_eq. intros j.
  destruct (decide (j < length x)) as [Hj|Hj].
  - destruct (Hgf j) as (i & Hi & Hlt & Hfi); [lia|].
    rewrite (Hlookz j i) by (done || lia).
    apply Hlooky; [lia|done].
  - by rewrite !lookup_ge_None_2 by lia.
Qed.

Lemma reorder_round_trip_witness :
  ∃ y, reorder [1; 2; 0] [10; 20; 30]%Q = Ok y
       ∧ reorder [2; 0; 1] y = Ok [10; 20; 30]%Q.
Proof.
  apply (reorder_round_trip [1; 2; 0] [2; 0; 1] [10; 20; 30]%Q).
  - split; [reflexivity|].
    intros [|[|[|i]]] Hi; simpl in *;
      [eexists; split_and!; [reflexivity|lia|reflexivity]..|lia].
  - split; [reflexivity|].
    intros [|[|[|i]]] Hi; simpl in *;
      [eexists; split_and!; [reflexivity|lia|reflexivity]..|lia].
  - reflexivity.
Defined.

(** ** The tables of [create_dof_lookup], whatever the joint names *)

Lemma py_index_not_elem_of `{EqDecision A} (x : A) (l : list A) :
  x ∉ l → py_index x l = Err ValueError.
Proof.
  intros Hx. unfold py_index.
  destruct (list_find _ l) as [[i y]|] eqn:E; [|done].
  apply list_find_Some in E as (Hi & -> & _).
  destruct Hx. by eapply list_elem_of_lookup_2.
Qed.

Lemma invert_lookup_Ok_inv res range acc out :
  invert_lookup res range acc = Ok out → ∀ i, i ∈ range → i ∈ res.
Proof.
  revert acc. induction range as [|i range IH]; intros acc Hrun k Hk.
  { by apply elem_of_nil in Hk. }
  simpl in Hrun. destruct (py_index i res) as [p|] eqn:Hp; [|done].
  simpl in Hrun. apply elem_of_cons in Hk as [->|Hk]; [|by eapply IH].
  apply py_index_Ok in Hp as [Hp _]. by eapply list_elem_of_lookup_2.
Qed.

Lemma inverse_on_Permutation f g :
  inverse_on f g → f ≡ₚ seq 0 (length f).
Proof.
  intros [Hlen Hfg]. apply submseteq_length_Permutation.
  - apply NoDup_submseteq.
    + apply NoDup_alt. intros i j x Hi Hj.
      destruct (Hfg i) as (x1 & Hi' & _ & Hg1); [by eapply lookup_lt_Some|].
      destruct (Hfg j) as (x2 & Hj' & _ & Hg2); [by eapply lookup_lt_Some|].
      congruence.
    + intros x [i Hi]%list_elem_of_lookup.
      destruct (Hfg i) as (x1 & Hi' & Hlt & _); [by eapply lookup_lt_Some|].
      apply elem_of_seq. simplify_eq. lia.
  - by rewrite length_seq.
Qed.

Lemma dof_lookup_sound dof m new_joint_list pin_to_new new_to_pin :
  dof_lookup dof m new_joint_list = Ok (pin_to_new, new_to_pin) →
  new_to_pin ≡ₚ seq 0 (length new_to_pin) ∧
  inverse_on new_to_pin pin_to_new ∧ inverse_on pin_to_new new_to_pin.
Proof.
  unfold dof_lookup.
  destruct (rearrange_joints _ _ _ _) as [x_new_to_pin|]; [|done]. simpl.
  set (res := flatten x_new_to_pin []).
  destruct (invert_lookup res _ _) as [out|] eqn:Hinv; [|done]. simpl.
  intros [= <- <-].
  assert (res ≡ₚ seq 0 (length res)) as Hperm.
  { symmetry. apply submseteq_length_Permutation.
    - apply NoDup_submseteq; [apply NoDup_seq|].
      intros i Hi. by eapply invert_lookup_Ok_inv.
    - by rewrite length_seq. }
  destruct (invert_lookup_inverse res _ Hperm) as (out' & Hrun & H1 & H2).
  rewrite Hinv in Hrun. by simplify_eq.
Qed.

(** X4. Whenever [create_dof_lookup] returns, whatever the model and the
    joint names, each new-to-pin table lists [0 .. N-1] in some order, [N]
    being the table's own length, and is inverse to its pin-to-new table in
    both directions. *)
Theorem create_dof_lookup_sound (m : Model) (new_joint_list : list string)
    (q_pin_to_new q_new_to_pin v_pin_to_new v_new_to_pin : list nat) :
  create_dof_lookup m new_joint_list
  = Ok (q_pin_to_new, q_new_to_pin, v_pin_to_new, v_new_to_pin) →
  (q_new_to_pin ≡ₚ seq 0 (length q_new_to_pin) ∧
   inverse_on q_new_to_pin q_pin_to_new ∧
   inverse_on q_pin_to_new q_new_to_pin) ∧
  (v_new_to_pin ≡ₚ seq 0 (length v_new_to_pin) ∧
   inverse_on v_new_to_pin v_pin_to_new ∧
   inverse_on v_pin_to_new v_new_to_pin).
Proof.
  unfold create_dof_lookup.
  destruct (dof_lookup nq m new_joint_list) as [[qpn qnp]|] eqn:Hq; [|done].
  destruct (dof_lookup nv m new_joint_list) as [[vpn vnp]|] eqn:Hv; [|done].
  simpl. intros [= <- <- <- <-].
  split; by eapply dof_lookup_sound.
Qed.

Lemma create_dof_lookup_sound_witness :
  ([1; 2; 3; 4; 0] ≡ₚ seq 0 (length [1; 2; 3; 4; 0]) ∧
   inverse_on [1; 2; 3; 4; 0] [4; 0; 1; 2; 3] ∧
   inverse_on [4; 0; 1; 2; 3] [1; 2; 3; 4; 0]) ∧
  ([1; 2; 3; 0] ≡ₚ seq 0 (length [1; 2; 3; 0]) ∧
   inverse_on [1; 2; 3; 0] [3; 0; 1; 2] ∧
   inverse_on [3; 0; 1; 2] [1; 2; 3; 0]).
Proof.
  apply (create_dof_lookup_sound spherical_model ["R"; "S"]%string).
  vm_compute. reflexivity.
Defined.

Lemma rearrange_joints_missing pin_joint_names x_pin_to_pin new_joint_list acc :
  (∃ x, x ∈ new_joint_list ∧ x ∉ pin_joint_names) →
  length pin_joint_names ≤ length x_pin_to_pin →
  rearrange_joints pin_joint_names x_pin_to_pin new_joint_list acc
  = Err ValueError.
Proof.
  intros Hmiss Hlen. revert acc.
  induction new_joint_list as [|x new IH]; intros acc.
  { destruct Hmiss as (y & Hy & _). by apply elem_of_nil in Hy. }
  simpl. destruct (decide (x ∈ pin_joint_names)) as [Hx|Hx].
  - destruct (py_index_elem_of x pin_joint_names Hx) as [i Hi].
    rewrite Hi. simpl. apply py_index_Ok in Hi as [Hi _].
    apply lookup_lt_Some in Hi.
    destruct (lookup_lt_is_Some_2 x_pin_to_pin i) as [b Hb]; [lia|].
    unfold py_getitem. rewrite Hb. simpl. apply IH.
    destruct Hmiss as (y & [->|Hy]%elem_of_cons & Hny); [done|eauto].
  - by rewrite py_index_not_elem_of.
Qed.

(** X5. A joint name that the pinocchio model does not know makes
    [create_dof_lookup] raise [ValueError]. *)
Theorem create_dof_lookup_unknown_joint (m : Model)
    (new_joint_list : list string) (x : string) :
  x ∈ new_joint_list → x ∉ get_joint_names m →
  length (get_joint_names m) ≤ length (joints m) →
  create_dof_lookup m new_joint_list = Err ValueError.
Proof.
  intros Hx Hnx Hlen.
  assert (dof_lookup nq m new_joint_list = Err ValueError) as Hq.
  { unfold dof_lookup. rewrite rearrange_joints_missing; [done|by exists x|].
    rewrite group_dofs_blocks. simpl.
    by rewrite length_dof_blocks, length_fmap. }
  unfold create_dof_lookup. by rewrite Hq.
Qed.

Lemma create_dof_lookup_unknown_joint_witness :
  create_dof_lookup spherical_model ["R"; "S"; "T"]%string = Err ValueError.
Proof.
  apply (create_dof_lookup_unknown_joint spherical_model
           ["R"; "S"; "T"]%string "T"%string).
  - by apply (bool_decide_unpack _).
  - by apply (bool_decide_unpack _).
  - simpl. lia.
Defined.

Lemma reorder_seq_id {A} (x : list A) n :
  length x ≤ n → reorder (seq 0 n) x = Ok x.
Proof.
  intros Hlen.
  destruct (reorder_Ok_lookup (seq 0 n) x) as (y & -> & Hleny & Hlook).
  { intros i Hi. exists i. split; [|done]. apply lookup_seq_lt. lia. }
  f_equal. apply list_eq. intros i.
  destruct (decide (i < length x)) as [Hi|Hi].
  - apply Hlook; [done|]. apply lookup_seq_lt. lia.
  - by rewrite !lookup_ge_None_2 by lia.
Qed.

Lemma dof_lookup_identity dof m :
  NoDup (get_joint_names m) →
  length (get_joint_names m) ≤ length (joints m) →
  dof_lookup dof m (get_joint_names m)
  = Ok (seq 0 (scalar_count dof m), seq 0 (scalar_count dof m)).
Proof.
  intros Hnd Hlen. unfold dof_lookup. rewrite group_dofs_blocks. simpl.
  set (blocks := dof_blocks (dof <$> joints m) 0).
  assert (length (get_joint_names m) ≤ length blocks) as Hlen'.
  { unfold blocks. by rewrite length_dof_blocks, length_fmap. }
  rewrite (rearrange_joints_Ok _ _ _ []); [|done..].
  simpl. rewrite flatten_join. simpl. rewrite block_of_names by done.
  unfold blocks. rewrite take_dof_blocks, join_dof_blocks.
  fold (scalar_count dof m). set (N := scalar_count dof m).
  destruct (invert_lookup_Ok (seq 0 N) (seq 0 (length (seq 0 N))) [])
    as (out & -> & Hout & Hlook); [by rewrite length_seq|].
  simpl. do 2 f_equal. rewrite !length_seq in *. apply list_eq. intros i.
  destruct (decide (i < N)) as [Hi|Hi].
  - destruct (Hlook i i) as (p & -> & Hp); [by apply lookup_seq_lt|].
    apply py_index_Ok in Hp as [[-> _]%lookup_seq _].
    by rewrite lookup_seq_lt.
  - by rewrite !lookup_ge_None_2 by (rewrite ?length_seq; lia).
Qed.

(** X6. When ROS lists the joints in the order of the pinocchio model, the
    four tables are the identity [0, 1, .., N-1], and reordering with
    them returns every vector of at most [N] scalars as it is. *)
Theorem create_dof_lookup_identity (m : Model) :
  NoDup (get_joint_names m) →
  length (get_joint_names m) ≤ length (joints m) →
  create_dof_lookup m (get_joint_names m)
  = Ok (seq 0 (scalar_count nq m), seq 0 (scalar_count nq m),
        seq 0 (scalar_count nv m), seq 0 (scalar_count nv m)) ∧
  (∀ x : list Q, length x ≤ scalar_count nq m →
                 reorder (seq 0 (scalar_count nq m)) x = Ok x) ∧
  (∀ x : list Q, length x ≤ scalar_count nv m →
                 reorder (seq 0 (scalar_count nv m)) x = Ok x).
Proof.
  intros Hnd Hlen. split_and!.
  - unfold create_dof_lookup. by rewrite !dof_lookup_identity.
  - intros x. apply reorder_seq_id.
  - intros x. apply reorder_seq_id.
Qed.

Lemma create_dof_lookup_identity_witness :
  create_dof_lookup spherical_model ["S"; "R"]%string
  = Ok (seq 0 (scalar_count nq spherical_model),
        seq 0 (scalar_count nq spherical_model),
        seq 0 (scalar_count nv spherical_model),
        seq 0 (scalar_count nv spherical_model)).
Proof.
  apply (create_dof_lookup_identity spherical_model).
  - by apply (bool_decide_unpack _).
  - simpl. lia.
Defined.

Lemma create_dof_lookup_tables m new_joint_list qpn qnp vpn vnp :
  create_dof_lookup m new_joint_list = Ok (qpn, qnp, vpn, vnp) →
  qpn ≡ₚ seq 0 (length qpn) ∧ vpn ≡ₚ seq 0 (length vpn).
Proof.
  unfold create_dof_lookup.
  destruct (dof_lookup nq m new_joint_list) as [[qpn' qnp']|] eqn:Hq; [|done].
  destruct (dof_lookup nv m new_joint_list) as [[vpn' vnp']|] eqn:Hv; [|done].
  simpl. intros [= <- <- <- <-].
  apply dof_lookup_sound in Hq as (_ & _ & Hq).
  apply dof_lookup_sound in Hv as (_ & _ & Hv).
  split; by eapply inverse_on_Permutation.
Qed.

(** X7. A robot whose tables were built at start-up reads every message
    that has as many positions, velocities and efforts as its tables have
    entries: with [raw=True] the three vectors come back as permutations of
    the ones in the message. *)
Theorem make_robot_reads (m : Model) (first_msg joints_state : JointState)
    (r : Robot) :
  make_robot m first_msg = Ok r →
  length (position joints_state) = length (_q_pin_to_ros r) →
  length (velocity joints_state) = length (_v_pin_to_ros r) →
  length (effort joints_state) = length (_v_pin_to_ros r) →
  ∃ q v tau,
    get_meas_qvtau r joints_state true = Ok (q, v, tau) ∧
    q ≡ₚ position joints_state ∧ v ≡ₚ velocity joints_state ∧
    tau ≡ₚ effort joints_state.
Proof.
  unfold make_robot.
  destruct (create_dof_lookup m (name first_msg))
    as [[[[qpn qnp] vpn] vnp]|] eqn:Htab; [|done].
  simpl. intros [= <-]. simpl. intros Hq Hv Htau.
  destruct (create_dof_lookup_tables _ _ _ _ _ _ Htab) as [Hqperm Hvperm].
  rewrite <- Hq in Hqperm. pose proof Hvperm as Hvperm'.
  rewrite <- Hv in Hvperm. rewrite <- Htau in Hvperm'.
  destruct (reorder_seq_Permutation _ _ Hqperm) as (q & Hrq & Hpq).
  destruct (reorder_seq_Permutation _ _ Hvperm) as (v & Hrv & Hpv).
  destruct (reorder_seq_Permutation _ _ Hvperm') as (tau & Hrt & Hpt).
  exists q, v, tau. split; [|done].
  unfold get_meas_qvtau. rewrite _rearrange_ros_to_pin_Some. simpl.
  by rewrite Hrq, Hrv, Hrt.
Qed.

Lemma make_robot_reads_witness :
  ∃ q v tau,
    get_meas_qvtau
      {| model := spherical_model;
         _q_pin_to_ros := [4; 0; 1; 2; 3]; _q_ros_to_pin := [1; 2; 3; 4; 0];
         _v_pin_to_ros := [3; 0; 1; 2]; _v_ros_to_pin := [1; 2; 3; 0] |}
      {| name := ["R"; "S"]%string; position := [1; 2; 3; 4; 5]%Q;
         velocity := [6; 7; 8; 9]%Q; effort := [0; 0; 0; 0]%Q |} true
    = Ok (q, v, tau) ∧
    q ≡ₚ [1; 2; 3; 4; 5]%Q ∧ v ≡ₚ [6; 7; 8; 9]%Q ∧ tau ≡ₚ [0; 0; 0; 0]%Q.
Proof.
  apply (make_robot_reads spherical_model
           {| name := ["R"; "S"]%string; position := [];
              velocity := []; effort := [] |}
           {| name := ["R"; "S"]%string; position := [1; 2; 3; 4; 5]%Q;
              velocity := [6; 7; 8; 9]%Q; effort := [0; 0; 0; 0]%Q |}).
  - vm_compute. reflexivity.
  - reflexivity.
  - reflexivity.
  - reflexivity.
Defined.

(** ** Reading the configuration within the joint limits *)

Lemma clamp_within lower upper pos :
  (lower <= pos)%Q → (pos <= upper)%Q → clamp lower upper pos = pos.
Proof.
  intros Hlo Hup. unfold clamp, py_max, py_min.
  destruct (Qltb pos lower) eqn:E1.
  { apply Qltb_true in E1. lra. }
  destruct (Qltb upper pos) eqn:E2; [|done].
  apply Qltb_true in E2. lra.
Qed.

Lemma clamp_from_Ok_imap m todo out :
  clamp_from m 0 todo = Ok out → out = imap (clamped m) todo.
Proof.
  intros Hrun. pose proof (clamp_from_Ok_inv _ _ _ _ Hrun) as Hdev.
  rewrite (clamp_from_Ok m 0 todo) in Hrun by done. by injection Hrun as <-.
Qed.

(** X8. When [get_meas_qvtau] returns with [raw] unset, the velocities and
    efforts are the reordered ones, untouched; [get_meas_q] returns the same
    configuration; every scalar of it is less than 1e-3 away from the
    reordered reading and, where the limits are in order, within them. *)
Theorem get_meas_q_within_limits (r : Robot) (js : JointState)
    (q v tau q' v' tau' : list Q) :
  reorder (_q_pin_to_ros r) (position js) = Ok q →
  reorder (_v_pin_to_ros r) (velocity js) = Ok v →
  reorder (_v_pin_to_ros r) (effort js) = Ok tau →
  length q ≤ length (lowerPositionLimit (model r)) →
  length q ≤ length (upperPositionLimit (model r)) →
  get_meas_qvtau r js false = Ok (q', v', tau') →
  v' = v ∧ tau' = tau ∧ get_meas_q r js false = Ok q' ∧
  length q' = length q ∧
  ∀ i pos x, q !! i = Some pos → q' !! i = Some x →
    (Qabs (x - pos) < 1 # 1000)%Q ∧
    ((lowerPositionLimit (model r) !!! i
      <= upperPositionLimit (model r) !!! i)%Q →
     (lowerPositionLimit (model r) !!! i <= x
      <= upperPositionLimit (model r) !!! i)%Q).
Proof.
  intros Hq Hv Htau Hlo Hup Hrun.
  unfold get_meas_q. rewrite Hrun. simpl.
  rewrite (get_meas_qvtau_clamp_from r js q v tau Hq Hv Htau Hlo Hup) in Hrun.
  destruct (clamp_from (model r) 0 q) as [out|] eqn:Hout; [|done].
  simpl in Hrun. injection Hrun as <- <- <-.
  pose proof (clamp_from_Ok_inv _ _ _ _ Hout) as Hdev.
  apply clamp_from_Ok_imap in Hout as ->.
  split_and!; [done..|by rewrite length_imap|].
  intros i pos x Hi. rewrite list_lookup_imap, Hi. simpl. intros [= <-].
  split; [apply (Hdev i pos Hi)|]. intros Hlu. by apply clamp_in_bounds.
Qed.

Lemma get_meas_q_within_limits_witness :
  [0%Q] = [0%Q] ∧ [0%Q] = [0%Q] ∧
  get_meas_q scenario2_robot (scenario2_reading (10005 # 10000)) false
  = Ok [1%Q] ∧
  length [1%Q] = length [10005 # 10000] ∧
  ∀ i pos x, [10005 # 10000] !! i = Some pos → [1%Q] !! i = Some x →
    (Qabs (x - pos) < 1 # 1000)%Q ∧
    ((lowerPositionLimit (model scenario2_robot) !!! i
      <= upperPositionLimit (model scenario2_robot) !!! i)%Q →
     (lowerPositionLimit (model scenario2_robot) !!! i <= x
      <= upperPositionLimit (model scenario2_robot) !!! i)%Q).
Proof.
  apply (get_meas_q_within_limits scenario2_robot
           (scenario2_reading (10005 # 10000))
           [10005 # 10000] [0%Q] [0%Q] [1%Q] [0%Q] [0%Q]);
    try reflexivity; simpl; lia.
Defined.

(** X9. A reading that lies within the joint limits is returned as it is:
    with [raw] unset [get_meas_qvtau] gives what it gives with
    [raw=True]. *)
Theorem get_meas_qvtau_within_limits (r : Robot) (js : JointState)
    (q v tau : list Q) :
  reorder (_q_pin_to_ros r) (position js) = Ok q →
  reorder (_v_pin_to_ros r) (velocity js) = Ok v →
  reorder (_v_pin_to_ros r) (effort js) = Ok tau →
  length q ≤ length (lowerPositionLimit (model r)) →
  length q ≤ length (upperPositionLimit (model r)) →
  (∀ i pos, q !! i = Some pos →
     (lowerPositionLimit (model r) !!! i <= pos
      <= upperPositionLimit (model r) !!! i)%Q) →
  get_meas_qvtau r js false = Ok (q, v, tau) ∧
  get_meas_qvtau r js false = get_meas_qvtau r js true.
Proof.
  intros Hq Hv Htau Hlo Hup Hin.
  assert (get_meas_qvtau r js true = Ok (q, v, tau)) as Hraw.
  { unfold get_meas_qvtau.
    by rewrite _rearrange_ros_to_pin_Some, Hq, Hv, Htau. }
  assert (∀ i pos, q !! i = Some pos → clamped (model r) i pos = pos)
    as Hid.
  { intros i pos Hi. destruct (Hin i pos Hi). by apply clamp_within. }
  assert (get_meas_qvtau r js false = Ok (q, v, tau)) as Hclamp.
  { rewrite (get_meas_qvtau_clamp_from r js q v tau Hq Hv Htau Hlo Hup).
    rewrite (clamp_from_Ok (model r) 0 q).
    - simpl. do 3 f_equal. apply list_eq. intros i.
      rewrite list_lookup_imap. destruct (q !! i) as [pos|] eqn:Hi; [|done].
      simpl. f_equal. by apply Hid.
    - intros k pos Hk. unfold deviation. change (0 + k) with k.
      rewrite (Hid k pos Hk).
      apply Qabs_Qlt_condition. split; lra. }
  by rewrite Hclamp, Hraw.
Qed.

Lemma get_meas_qvtau_within_limits_witness :
  get_meas_qvtau scenario2_robot (scenario2_reading (1 # 2)) false
  = Ok ([1 # 2], [0%Q], [0%Q]) ∧
  get_meas_qvtau scenario2_robot (scenario2_reading (1 # 2)) false
  = get_meas_qvtau scenario2_robot (scenario2_reading (1 # 2)) true.
Proof.
  apply (get_meas_qvtau_within_limits scenario2_robot
           (scenario2_reading (1 # 2)) [1 # 2] [0%Q] [0%Q]);
    try reflexivity; try (simpl; lia).
  intros [|i] pos Hi; simplify_eq/=. split; vm_compute; discriminate.
Defined.

(** * Further properties of planner.py *)

(** ** Building and splitting paths *)

Section create_path_log.

Context {W : Type} (h : server W).

Lemma append_direct_paths_log pathId qs w :
  ∃ w', run h (append_direct_paths pathId qs) w
        = (Ok (), w', append_entries pathId qs).
Proof.
  revert w. induction qs as [|q qs IH]; intros w; [by eexists|].
  simpl. next_call h. destruct x.
  destruct (IH w0) as (w' & ->). by eexists.
Qed.

End create_path_log.

(** X10. On two waypoints or more, [_create_path] asks the server for the
    direct path between the first two and then to append each further
    waypoint, in order and without validation, and returns the id the
    server gave; whether the server reported the first direct path as
    valid is not looked at. *)
Theorem _create_path_calls {W : Type} (h : server W) (w : W)
    (q0 q1 : config) (rest : list config) :
  ∃ res pathId msg w',
    run h (_create_path (q0 :: q1 :: rest)) w
    = (Ok pathId, w',
       Entry (directPath q0 q1 false) (res, pathId, msg)
       :: append_entries pathId rest).
Proof.
  simpl. next_call h. destruct x as [[res pathId] msg].
  rewrite run_bind_fix, drop_0.
  destruct (append_direct_paths_log h pathId rest w0) as (w' & ->).
  simpl. rewrite app_nil_r. by exists res, pathId, msg, w'.
Qed.

Lemma py_slice_lengths {A} (wps : list A) p b :
  length (py_slice wps None (Some (p + 1))) = (p + 1) `min` length wps ∧
  length (py_slice wps (Some p) (Some (b + 1)))
  = (b + 1) `min` length wps - p ∧
  length (py_slice wps (Some b) None) = length wps - b.
Proof.
  unfold py_slice. simpl default.
  by rewrite drop_0, !length_drop, !length_take.
Qed.

Section split_outcome.

Context (compare_configurations : config → config → result bool).
Context (pose_pick pose_place : config).
Context {W : Type} (h : server W).

Lemma split_path_long_slices wps p b w :
  scan_waypoints compare_configurations pose_pick pose_place wps 0 None None
  = Ok (Some p, Some b) →
  2 ≤ length (py_slice wps None (Some (p + 1))) →
  2 ≤ length (py_slice wps (Some p) (Some (b + 1))) →
  2 ≤ length (py_slice wps (Some b) None) →
  ∃ ids,
    (run h (split_path compare_configurations pose_pick pose_place wps) w).1.1
    = Ok ids.
Proof.
  intros Hscan H1 H2 H3. rewrite (split_path_unfold _ _ _ _ _ _ Hscan).
  cbn [py_add1 lift mbind prog_bind prog_bind_fix].
  destruct (_create_path_bind h (py_slice wps None (Some (p + 1)))
              (λ pick_pathId,
                 place_pathId ←
                   _create_path (py_slice wps (Some p) (Some (b + 1)));
                 home_pathId ← _create_path (py_slice wps (Some b) None);
                 Ret (pick_pathId, place_pathId, home_pathId)) w)
    as [[? _]|[_ (pick_pathId & w1 & Hrun1)]]; [lia|].
  destruct (_create_path_bind h (py_slice wps (Some p) (Some (b + 1)))
              (λ place_pathId,
                 home_pathId ← _create_path (py_slice wps (Some b) None);
                 Ret (pick_pathId, place_pathId, home_pathId)) w1)
    as [[? _]|[_ (place_pathId & w2 & Hrun2)]]; [lia|].
  destruct (_create_path_bind h (py_slice wps (Some b) None)
              (λ home_pathId, Ret (pick_pathId, place_pathId, home_pathId))
              w2)
    as [[? _]|[_ (home_pathId & w3 & Hrun3)]]; [lia|].
  exists (pick_pathId, place_pathId, home_pathId).
  etrans; [exact Hrun1|]. etrans; [exact Hrun2|]. etrans; [exact Hrun3|].
  done.
Qed.

Lemma split_path_no_pick_boundary wps place_index w :
  scan_waypoints compare_configurations pose_pick pose_place wps 0 None None
  = Ok (None, place_index) →
  run h (split_path compare_configurations pose_pick pose_place wps) w
  = (Err TypeError, w, []).
Proof. intros Hscan. by rewrite (split_path_unfold _ _ _ _ _ _ Hscan). Qed.

End split_outcome.

(** X11. Splitting returns its three path ids exactly when there is a
    last waypoint [p] matching the pick pose and a last waypoint [b] not
    matching the place pose, with at least one waypoint before [p], [b] not
    before [p], and at least two waypoints after [b]. *)
Theorem split_path_returns_iff {W : Type} (h : server W) (w : W)
    (compare_configurations : config → config → result bool)
    (pose_pick pose_place : config) (wps : list config) :
  comparable compare_configurations pose_pick pose_place wps →
  (∃ ids,
     (run h (split_path compare_configurations pose_pick pose_place wps)
        w).1.1 = Ok ids)
  ↔ ∃ p b,
      last_index (matches compare_configurations pose_pick) wps p ∧
      last_index (mismatches compare_configurations pose_place) wps b ∧
      1 ≤ p ∧ p ≤ b ∧ b + 3 ≤ length wps.
Proof.
  intros Hcmp.
  destruct (scan_waypoints_last _ _ _ wps Hcmp)
    as (pick_index & place_index & Hscan & Hpick & Hplace & Hnz).
  split.
  - intros [ids Hrun].
    destruct pick_index as [p|]; last first.
    { by rewrite (split_path_no_pick_boundary _ _ _ h _ _ _ Hscan) in Hrun. }
    pose proof (proj1 (Hpick p) eq_refl) as Hp.
    pose proof (last_index_lt _ _ _ Hp) as Hplt.
    destruct place_index as [[|b]|]; [done| |].
    + replace (S b) with (b + 1) in * by lia.
      pose proof (proj1 (Hplace b) eq_refl) as Hb.
      pose proof (last_index_lt _ _ _ Hb) as Hblt.
      destruct (py_slice_lengths wps p (b + 1)) as (H1 & H2 & H3).
      exists p, b. split_and!; [done..| | |].
      * destruct (decide (1 ≤ p)); [done|].
        rewrite (split_path_short_slice _ _ _ h wps p (b + 1) w Hscan)
          in Hrun; [done|lia].
      * destruct (decide (p ≤ b)); [done|].
        rewrite (split_path_short_slice _ _ _ h wps p (b + 1) w Hscan)
          in Hrun; [done|lia].
      * destruct (decide (b + 3 ≤ length wps)); [done|].
        rewrite (split_path_short_slice _ _ _ h wps p (b + 1) w Hscan)
          in Hrun; [done|lia].
    + rewrite (split_path_no_place_boundary _ _ _ h wps p w Hplt Hscan)
        in Hrun. done.
  - intros (p & b & Hp & Hb & H1 & H2 & H3).
    apply Hpick in Hp. apply Hplace in Hb. subst.
    destruct (py_slice_lengths wps p (b + 1)) as (L1 & L2 & L3).
    apply (split_path_long_slices _ _ _ h wps p (b + 1) w Hscan); lia.
Qed.

Lemma split_path_returns_iff_witness :
  ∃ ids,
    (run path_store
       (split_path (compare_configurations_spec (1 # 10))
          scenario3_pick scenario3_place
          [scenario3_pick; scenario3_pick; scenario3_transit;
           scenario3_place; scenario3_place; scenario3_place]) []).1.1
    = Ok ids.
Proof.
  apply (proj2 (split_path_returns_iff path_store []
                  (compare_configurations_spec (1 # 10))
                  scenario3_pick scenario3_place
                  [scenario3_pick; scenario3_pick; scenario3_transit;
                   scenario3_place; scenario3_place; scenario3_place]
                  ltac:(intros q Hq;
                        repeat (apply elem_of_cons in Hq as [->|Hq]);
                        [split; eexists; vm_compute; reflexivity..|];
                        by apply elem_of_nil in Hq))).
  exists 1, 2. split_and!; [| |lia|lia|simpl; lia].
  - split; [eexists; split; [reflexivity|vm_compute; reflexivity]|].
    intros [|[|[|[|[|[|j]]]]]] q Hj Hq; simplify_eq/=; try lia;
      vm_compute; discriminate.
  - split; [eexists; split; [reflexivity|vm_compute; reflexivity]|].
    intros [|[|[|[|[|[|j]]]]]] q Hj Hq; simplify_eq/=; try lia;
      vm_compute; discriminate.
Defined.

(** X12. When no waypoint matches the pick pose, [pick_index] is still
    [None] after the loop and splitting raises [TypeError] on
    [pick_index+1], before any request to the server. *)
Theorem split_path_without_pick {W : Type} (h : server W) (w : W)
    (compare_configurations : config → config → result bool)
    (pose_pick pose_place : config) (wps : list config) :
  comparable compare_configurations pose_pick pose_place wps →
  (∀ q, q ∈ wps → ¬ matches compare_configurations pose_pick q) →
  run h (split_path compare_configurations pose_pick pose_place wps) w
  = (Err TypeError, w, []).
Proof.
  intros Hcmp Hnone.
  destruct (scan_waypoints_last _ _ _ wps Hcmp)
    as ([p|] & place_index & Hscan & Hpick & _).
  - destruct (proj1 (Hpick p) eq_refl) as [(q & Hq & Hm) _].
    destruct (Hnone q); [by eapply list_elem_of_lookup_2|done].
  - by apply (split_path_no_pick_boundary _ _ _ h _ _ _ Hscan).
Qed.

Lemma split_path_without_pick_witness :
  run path_store
    (split_path (compare_configurations_spec (1 # 10))
       scenario3_pick scenario3_place
       [scenario3_transit; scenario3_place; scenario3_place]) []
  = (Err TypeError, [], []).
Proof.
  apply (split_path_without_pick path_store []
           (compare_configurations_spec (1 # 10))
           scenario3_pick scenario3_place
           [scenario3_transit; scenario3_place; scenario3_place]).
  - intros q Hq. repeat (apply elem_of_cons in Hq as [->|Hq]);
      [split; eexists; vm_compute; reflexivity..|].
    by apply elem_of_nil in Hq.
  - intros q Hq. repeat (apply elem_of_cons in Hq as [->|Hq]);
      [vm_compute; discriminate..|].
    by apply elem_of_nil in Hq.
Defined.

(** X13. With the pick boundary [p] not after the place boundary [b] and
    [b] inside the path, the three slices chain: the pick slice ends on the
    waypoint the place slice starts with, the place slice ends on the one
    the home slice starts with, and put end to end, the shared waypoints
    counted once, they are the whole path. *)
Theorem split_slices_chain (wps : list config) (p b : nat) :
  p ≤ b → b < length wps →
  last (py_slice wps None (Some (p + 1)))
  = head (py_slice wps (Some p) (Some (b + 1))) ∧
  last (py_slice wps (Some p) (Some (b + 1)))
  = head (py_slice wps (Some b) None) ∧
  py_slice wps None (Some (p + 1))
  ++ drop 1 (py_slice wps (Some p) (Some (b + 1)))
  ++ drop 1 (py_slice wps (Some b) None) = wps.
Proof.
  intros Hpb Hb. destruct (py_slice_lengths wps p b) as (L1 & L2 & L3).
  split_and!.
  - rewrite last_lookup, head_lookup, L1.
    rewrite (pick_slice_range wps p), (place_slice_range wps p b).
    repeat case_decide; try lia. f_equal. lia.
  - rewrite last_lookup, head_lookup, L2.
    rewrite (place_slice_range wps p b).
    unfold py_slice. simpl default. rewrite lookup_drop.
    case_decide; [|lia]. f_equal. lia.
  - unfold py_slice. simpl default. rewrite drop_0, !drop_drop.
    rewrite <- (take_drop (b + 1) wps) at 4. rewrite app_assoc. f_equal.
    rewrite <- (take_drop (p + 1) (take (b + 1) wps)) at 2. f_equal.
    rewrite take_take. f_equal. lia.
Qed.

Lemma split_slices_chain_witness :
  last (py_slice scenario3_wps None (Some (1 + 1)))
  = head (py_slice scenario3_wps (Some 1) (Some (4 + 1))) ∧
  last (py_slice scenario3_wps (Some 1) (Some (4 + 1)))
  = head (py_slice scenario3_wps (Some 4) None) ∧
  py_slice scenario3_wps None (Some (1 + 1))
  ++ drop 1 (py_slice scenario3_wps (Some 1) (Some (4 + 1)))
  ++ drop 1 (py_slice scenario3_wps (Some 4) None) = scenario3_wps.
Proof. apply (split_slices_chain scenario3_wps 1 4); simpl; lia. Defined.

(** ** The goal sampler, request by request *)

Section sampler_log.

Context {W : Type} (h : server W).

Lemma projections_cons e log :
  length (filter is_projection (e :: log))
  = (if is_projection e then 1 else 0) + length (filter is_projection log).
Proof. rewrite filter_cons. by destruct (is_projection e). Qed.

Lemma sample_goals_loop_log gripperFullname q_init n q_goals w :
  ∃ pool w' log,
    run h (sample_goals_loop gripperFullname q_init n q_goals) w
    = (Ok pool, w', log) ∧
    pool = q_goals ++ omap accepted_pair log ∧
    omap erased_id log = omap accepted_id log ∧
    length (filter is_projection log) = 2 * n.
Proof.
  revert q_goals w. induction n as [|n IH]; intros q_goals w.
  { exists q_goals, w, []. by rewrite app_nil_r. }
  cbn [sample_goals_loop]. cbn -[sample_goals_loop].
  next_call h. next_call h. destruct x0 as [[res_pre q_pre] error_pre].
  cbn -[sample_goals_loop].
  next_call h. destruct x0 as [[res_grasp q_grasp] error_grasp].
  destruct (res_pre && res_grasp); cbn -[sample_goals_loop].
  - next_call h. destruct x0 as [[res_path pathId] error_path].
    destruct res_path; cbn -[sample_goals_loop].
    + next_call h.
      destruct (IH (q_goals ++ [(q_pre, q_grasp)]) w4)
        as (pool & w' & log & -> & -> & Herase & Hproj).
      eexists _, w', _. split; [reflexivity|]. split_and!.
      * simpl. by rewrite <- app_assoc.
      * simpl. by f_equal.
      * rewrite !projections_cons. simpl. lia.
    + destruct (IH q_goals w3)
        as (pool & w' & log & -> & -> & Herase & Hproj).
      eexists _, w', _. split; [reflexivity|]. split_and!; [done..|].
      rewrite !projections_cons. simpl. lia.
  - destruct (IH q_goals w2)
      as (pool & w' & log & -> & -> & Herase & Hproj).
    eexists _, w', _. split; [reflexivity|]. split_and!; [done..|].
    rewrite !projections_cons. simpl. lia.
Qed.

End sampler_log.

(** X14. The pool of the sampler holds exactly the pairs whose direct path
    the server found valid, in the order in which they were drawn, and the
    sampling step of [make_gripper_approach] returns that pool if it is not
    empty. *)
Theorem sampler_pool_is_accepted_pairs {W : Type} (h : server W) (w : W)
    (gripperFullname : string) (q_init : config) :
  ∃ pool w' log,
    run h (sample_goals_loop gripperFullname q_init 100 []) w
    = (Ok pool, w', log) ∧
    pool = omap accepted_pair log ∧
    (pool ≠ [] →
     run h (generate_goal_configurations gripperFullname q_init) w
     = (Ok pool, w', log)).
Proof.
  destruct (sample_goals_loop_log h gripperFullname q_init 100 [] w)
    as (pool & w' & log & Hrun & -> & _).
  exists (omap accepted_pair log), w', log. split_and!; [done..|].
  intros Hne. unfold generate_goal_configurations.
  rewrite run_bind, Hrun. simpl.
  case_bool_decide as Hlen; simpl; rewrite app_nil_r; [done|].
  destruct (omap accepted_pair log); [done|simpl in Hlen; lia].
Qed.

Lemma sampler_pool_is_accepted_pairs_witness :
  ∃ pool w' log,
    run always_accepts (sample_goals_loop "gripper" [] 100 []) ()
    = (Ok pool, w', log) ∧
    pool = omap accepted_pair log ∧
    (pool ≠ [] →
     run always_accepts (generate_goal_configurations "gripper" []) ()
     = (Ok pool, w', log)).
Proof. apply (sampler_pool_is_accepted_pairs always_accepts () "gripper" []). Defined.

(** X15. The sampler asks the server to erase exactly the direct paths it
    accepted, each once and in the order of acceptance; a direct path
    reported invalid is never erased.  It asks for two projections per
    draw, 200 in all. *)
Theorem sampler_erases_accepted_paths {W : Type} (h : server W) (w : W)
    (gripperFullname : string) (q_init : config) :
  omap erased_id
    (run h (generate_goal_configurations gripperFullname q_init) w).2
  = omap accepted_id
      (run h (generate_goal_configurations gripperFullname q_init) w).2 ∧
  length (filter is_projection
            (run h (generate_goal_configurations gripperFullname q_init) w).2)
  = 200.
Proof.
  destruct (sample_goals_loop_log h gripperFullname q_init 100 [] w)
    as (pool & w' & log & Hrun & _ & Herase & Hproj).
  unfold generate_goal_configurations. rewrite run_bind, Hrun. simpl.
  case_bool_decide; simpl; by rewrite app_nil_r.
Qed.

(** ** Finding the grasp that ends the planned path *)

(** X16. The search for the pre-grasp configuration at the end of the
    path stops at the first pair whose pre-grasp matches: it yields the
    grasp of that pair, also when later pairs match too; it yields [None],
    on which the assertion that follows fails, exactly when no pre-grasp
    matches. *)
Theorem find_end_grasp_first_match
    (compare_configurations : config → config → result bool)
    (q_goals : list (config * config)) (q_end : config) :
  (∀ pair, pair ∈ q_goals →
           ∃ same, compare_configurations pair.1 q_end = Ok same) →
  (∀ before q_pre q_grasp after,
     q_goals = before ++ (q_pre, q_grasp) :: after →
     compare_configurations q_pre q_end = Ok true →
     (∀ pair, pair ∈ before →
              compare_configurations pair.1 q_end = Ok false) →
     find_end_grasp compare_configurations q_goals q_end
     = Ok (Some q_grasp)) ∧
  (find_end_grasp compare_configurations q_goals q_end = Ok None
   ↔ ∀ pair, pair ∈ q_goals →
             compare_configurations pair.1 q_end = Ok false).
Proof.
  intros Hcmp. split.
  - intros before q_pre q_grasp after -> Htrue Hfalse. clear Hcmp.
    induction before as [|[p g] before IH]; simpl.
    + by rewrite Htrue.
    + pose proof (Hfalse (p, g) ltac:(by left)) as Hpg. simpl in Hpg.
      rewrite Hpg. simpl. apply IH. intros pair Hpair. apply Hfalse. by right.
  - induction q_goals as [|[p g] q_goals IH]; simpl.
    { split; [|done]. by intros _ pair ?%elem_of_nil. }
    destruct (Hcmp (p, g)) as [same Hsame]; [by left|].
    simpl in Hsame. rewrite Hsame. simpl. destruct same.
    + split; [done|]. intros Hall.
      specialize (Hall (p, g) ltac:(by left)). simpl in Hall. congruence.
    + rewrite IH by (intros pair Hpair; apply Hcmp; by right).
      split.
      * intros Hall pair [->|Hpair]%elem_of_cons; [done|by apply Hall].
      * intros Hall pair Hpair. apply Hall. by right.
Qed.

Lemma find_end_grasp_first_match_witness :
  find_end_grasp (compare_configurations_spec (1 # 10))
    [([0%Q], [5%Q]); ([1%Q], [6%Q]); ([1%Q], [7%Q])] [1%Q]
  = Ok (Some [6%Q]).
Proof.
  refine (proj1 (find_end_grasp_first_match
                   (compare_configurations_spec (1 # 10))
                   [([0%Q], [5%Q]); ([1%Q], [6%Q]); ([1%Q], [7%Q])] [1%Q] _)
            [([0%Q], [5%Q])] [1%Q] [6%Q] [([1%Q], [7%Q])] _ _ _).
  - intros pair Hpair. repeat (apply elem_of_cons in Hpair as [->|Hpair]);
      [eexists; vm_compute; reflexivity..|].
    by apply elem_of_nil in Hpair.
  - reflexivity.
  - vm_compute. reflexivity.
  - intros pair [->|Hpair%elem_of_nil]%elem_of_cons; [|done].
    vm_compute. reflexivity.
Defined.

(** ** Locking joints *)

Lemma current_joint_values_Ok all_names q_current jointNames values acc :
  Forall2 (λ n v, ∃ i, py_index n all_names = Ok i ∧ q_current !! i = Some v)
    jointNames values →
  current_joint_values all_names q_current jointNames acc
  = Ok (acc ++ values).
Proof.
  intros Hall. revert acc.
  induction Hall as [|n v jointNames values (i & Hi & Hv) _ IH]; intros acc.
  - simpl. by rewrite app_nil_r.
  - simpl. rewrite Hi. simpl. unfold py_getitem. rewrite Hv. simpl.
    by rewrite IH, <- app_assoc.
Qed.

Lemma current_joint_values_unknown all_names q_current jointNames acc x :
  x ∈ jointNames → x ∉ all_names → length all_names ≤ length q_current →
  current_joint_values all_names q_current jointNames acc = Err ValueError.
Proof.
  intros Hx Hnx Hlen. revert acc.
  induction jointNames as [|n jointNames IH]; intros acc.
  { by apply elem_of_nil in Hx. }
  simpl. destruct (decide (n ∈ all_names)) as [Hn|Hn].
  - destruct (py_index_elem_of n all_names Hn) as [i Hi]. rewrite Hi. simpl.
    apply py_index_Ok in Hi as [Hi _]. apply lookup_lt_Some in Hi.
    destruct (lookup_lt_is_Some_2 q_current i) as [v Hv]; [lia|].
    unfold py_getitem. rewrite Hv. simpl. apply IH.
    apply elem_of_cons in Hx as [->|Hx]; done.
  - by rewrite py_index_not_elem_of.
Qed.

Lemma create_locked_joints_sent cn jn jv range sent :
  (∀ i, i ∈ range → is_Some (locked_joint_at cn jn jv i)) →
  create_locked_joints cn jn jv range sent
  = (sent ++ omap (locked_joint_at cn jn jv) range, Ok ()).
Proof.
  revert sent. induction range as [|i range IH]; intros sent Hall; simpl.
  - by rewrite app_nil_r.
  - destruct (Hall i) as [cmd Hcmd]; [by left|]. rewrite Hcmd.
    unfold locked_joint_at, py_getitem in *.
    destruct (cn !! i) as [c|]; simpl in *; [|done].
    destruct (jn !! i) as [j|]; simpl in *; [|done].
    destruct (jv !! i) as [v|]; simpl in *; [|done].
    injection Hcmd as <-. rewrite IH, <- app_assoc; [done|].
    intros k Hk. apply Hall. by right.
Qed.

Lemma create_locked_joints_stops cn jn jv before i after sent :
  (∀ k, k ∈ before → is_Some (locked_joint_at cn jn jv k)) →
  locked_joint_at cn jn jv i = None →
  create_locked_joints cn jn jv (before ++ i :: after) sent
  = (sent ++ omap (locked_joint_at cn jn jv) before, Err IndexError).
Proof.
  revert sent. induction before as [|k before IH]; intros sent Hall Hi; simpl.
  - rewrite app_nil_r. unfold locked_joint_at, py_getitem in *.
    destruct (cn !! i) as [c|]; simpl in *; [|done].
    destruct (jn !! i) as [j|]; simpl in *; [|done].
    destruct (jv !! i) as [v|]; simpl in *; done.
  - destruct (Hall k) as [cmd Hcmd]; [by left|]. rewrite Hcmd.
    unfold locked_joint_at, py_getitem in Hcmd |- *.
    destruct (cn !! k) as [c|]; simpl in *; [|done].
    destruct (jn !! k) as [j|]; simpl in *; [|done].
    destruct (jv !! k) as [v|]; simpl in *; [|done].
    injection Hcmd as <-. rewrite IH, <- app_assoc; [done| |done].
    intros k' Hk'. apply Hall. by right.
Qed.

Lemma omap_locked_joint_at cn jn jv n :
  n ≤ length cn → n ≤ length jn → n ≤ length jv →
  omap (locked_joint_at cn jn jv) (seq 0 n)
  = take n (zip_with
              (λ c jv, createLockedJoint c ("robot/" +:+ jv.1) [jv.2])
              cn (zip jn jv)).
Proof.
  intros Hcn Hjn Hjv.
  assert (∀ i, i < n → is_Some (locked_joint_at cn jn jv i)) as Hsome.
  { intros i Hi. unfold locked_joint_at.
    destruct (lookup_lt_is_Some_2 cn i) as [c ->]; [lia|].
    destruct (lookup_lt_is_Some_2 jn i) as [j ->]; [lia|].
    destruct (lookup_lt_is_Some_2 jv i) as [v ->]; [lia|]. by eexists. }
  destruct (omap_seq_lookup _ _ Hsome) as [Hlen Hlook].
  apply list_eq. intros i. destruct (decide (i < n)) as [Hi|Hi].
  - rewrite Hlook, lookup_take_lt by done.
    rewrite lookup_zip_with. unfold locked_joint_at.
    destruct (cn !! i) as [c|]; simpl; [|done].
    rewrite lookup_zip_with.
    destruct (jn !! i) as [j|]; simpl; [|done].
    by destruct (jv !! i) as [v|].
  - rewrite lookup_take_ge by lia. apply lookup_ge_None_2. lia.
Qed.

(** X17. With the joint values and the constraint names left out,
    [lock_joints] locks each joint at the scalar of the current
    configuration found at the position of its name among the joint names:
    it sends one [createLockedJoint] per joint, named ["locked_" + joint],
    for ["robot/" + joint], then one [addLockedJointConstraints] with all
    the names; it returns the names and appends them to the constraints
    the planner remembers. *)
Theorem lock_joints_default (p : Planner) (joints_state : JointState)
    (jointNames : list string) (lockName : string)
    (q_current values : list Q) :
  get_meas_q (robot p) joints_state false = Ok q_current →
  Forall2 (λ n v, ∃ i, py_index n (get_joint_names (model (robot p))) = Ok i
                       ∧ q_current !! i = Some v)
    jointNames values →
  lock_joints p joints_state jointNames None None lockName
  = (zip_with (λ n v, createLockedJoint ("locked_" +:+ n) ("robot/" +:+ n) [v])
       jointNames values
     ++ [addLockedJointConstraints lockName
           ((λ n, "locked_" +:+ n) <$> jointNames)],
     Ok ((λ n, "locked_" +:+ n) <$> jointNames,
         {| robot := robot p; velocity_scale := velocity_scale p;
            acceleration_scale := acceleration_scale p;
            lockJointConstraints :=
              lockJointConstraints p
              ++ ((λ n, "locked_" +:+ n) <$> jointNames) |})).
Proof.
  intros Hq Hvalues. unfold lock_joints. rewrite Hq. simpl.
  rewrite (current_joint_values_Ok _ _ _ values []) by done. simpl.
  pose proof (Forall2_length _ _ _ Hvalues) as Hlen.
  set (names := (λ n, "locked_" +:+ n) <$> jointNames).
  assert (length names = length jointNames) as Hnames
    by (unfold names; by rewrite length_fmap).
  rewrite create_locked_joints_sent; last first.
  { intros i [_ Hi]%elem_of_seq. unfold locked_joint_at.
    destruct (lookup_lt_is_Some_2 names i) as [c ->]; [lia|].
    destruct (lookup_lt_is_Some_2 jointNames i) as [j ->]; [lia|].
    destruct (lookup_lt_is_Some_2 values i) as [v ->]; [lia|]. by eexists. }
  simpl. do 2 f_equal.
  rewrite omap_locked_joint_at by lia. rewrite take_ge; last first.
  { rewrite length_zip_with, length_zip. lia. }
  unfold names. clear. revert values.
  induction jointNames as [|n jointNames IH]; intros [|v values];
    simpl; [done..|]. by rewrite IH.
Qed.

Lemma lock_joints_default_witness :
  lock_joints
    {| robot := scenario2_robot; velocity_scale := 1; acceleration_scale := 1;
       lockJointConstraints := ["locked_old"%string] |}
    (scenario2_reading (1 # 2)) ["J"%string] None None "locked_joints"
  = ([createLockedJoint "locked_J" "robot/J" [1 # 2];
      addLockedJointConstraints "locked_joints" ["locked_J"%string]],
     Ok (["locked_J"%string],
         {| robot := scenario2_robot; velocity_scale := 1;
            acceleration_scale := 1;
            lockJointConstraints := ["locked_old"; "locked_J"]%string |})).
Proof.
  apply (lock_joints_default
           {| robot := scenario2_robot; velocity_scale := 1;
              acceleration_scale := 1;
              lockJointConstraints := ["locked_old"%string] |}
           (scenario2_reading (1 # 2)) ["J"%string] "locked_joints"
           [1 # 2] [1 # 2]).
  - reflexivity.
  - repeat constructor. exists 0. split; reflexivity.
Defined.

(** X18. A joint name that the robot does not have makes [lock_joints]
    raise [ValueError] while it collects the current values: no request has
    been sent to the problem solver and the planner is as before. *)
Theorem lock_joints_unknown_joint (p : Planner) (joints_state : JointState)
    (jointNames : list string) (constraintNames : option (list string))
    (lockName x : string) (q_current : list Q) :
  get_meas_q (robot p) joints_state false = Ok q_current →
  x ∈ jointNames → x ∉ get_joint_names (model (robot p)) →
  length (get_joint_names (model (robot p))) ≤ length q_current →
  lock_joints p joints_state jointNames None constraintNames lockName
  = ([], Err ValueError).
Proof.
  intros Hq Hx Hnx Hlen. unfold lock_joints. rewrite Hq. simpl.
  by rewrite (current_joint_values_unknown _ _ _ _ x).
Qed.

Lemma lock_joints_unknown_joint_witness :
  lock_joints
    {| robot := scenario2_robot; velocity_scale := 1; acceleration_scale := 1;
       lockJointConstraints := [] |}
    (scenario2_reading (1 # 2)) ["J"; "K"]%string None None "locked_joints"
  = ([], Err ValueError).
Proof.
  apply (lock_joints_unknown_joint
           {| robot := scenario2_robot; velocity_scale := 1;
              acceleration_scale := 1; lockJointConstraints := [] |}
           (scenario2_reading (1 # 2)) ["J"; "K"]%string None
           "locked_joints" "K" [1 # 2]).
  - reflexivity.
  - by apply (bool_decide_unpack _).
  - by apply (bool_decide_unpack _).
  - simpl. lia.
Defined.

(** X19. Given fewer constraint names than joints, [lock_joints] creates a
    locked joint for each name it has and then raises [IndexError]: the
    constraints created are neither added to the lock nor remembered by the
    planner. *)
Theorem lock_joints_short_names (p : Planner) (joints_state : JointState)
    (jointNames constraintNames : list string) (jointValues : list Q)
    (lockName : string) :
  length constraintNames < length jointNames →
  length jointNames ≤ length jointValues →
  lock_joints p joints_state jointNames (Some jointValues)
    (Some constraintNames) lockName
  = (zip_with (λ c jv, createLockedJoint c ("robot/" +:+ jv.1) [jv.2])
       constraintNames (zip jointNames jointValues),
     Err IndexError).
Proof.
  intros Hcn Hjv. unfold lock_joints.
  replace (length jointNames)
    with (length constraintNames
          + S (length jointNames - S (length constraintNames))) by lia.
  rewrite seq_app. cbn [seq]. rewrite create_locked_joints_stops.
  - simpl. rewrite omap_locked_joint_at by lia.
    rewrite take_ge; [done|]. rewrite length_zip_with. lia.
  - intros i [_ Hi]%elem_of_seq. unfold locked_joint_at.
    destruct (lookup_lt_is_Some_2 constraintNames i) as [c ->]; [lia|].
    destruct (lookup_lt_is_Some_2 jointNames i) as [j ->]; [lia|].
    destruct (lookup_lt_is_Some_2 jointValues i) as [v ->]; [lia|].
    by eexists.
  - unfold locked_joint_at.
    by rewrite (lookup_ge_None_2 constraintNames) by (simpl; lia).
Qed.

Lemma lock_joints_short_names_witness :
  lock_joints
    {| robot := scenario2_robot; velocity_scale := 1; acceleration_scale := 1;
       lockJointConstraints := [] |}
    (scenario2_reading (1 # 2)) ["a"; "b"]%string (Some [1; 2]%Q)
    (Some ["lock_a"%string]) "locked_joints"
  = ([createLockedJoint "lock_a" "robot/a" [1%Q]], Err IndexError).
Proof.
  apply (lock_joints_short_names
           {| robot := scenario2_robot; velocity_scale := 1;
              acceleration_scale := 1; lockJointConstraints := [] |}
           (scenario2_reading (1 # 2)) ["a"; "b"]%string ["lock_a"%string]
           [1; 2]%Q "locked_joints"); simpl; lia.
Defined.

(** ** The target pose inside a configuration *)

(** X20. A pose given as a position of three scalars and an orientation of
    three (Euler angles) or four (a quaternion) scalars is merged into seven
    scalars that start with the position; appended to a robot configuration,
    they are exactly the slice [q[-7:]] that the path splitter compares with
    the pick and place poses. *)
Theorem merge_pose_target_slice (fromRPY : Q → Q → Q → Q * Q * Q * Q)
    (position orientation q_start : list Q) :
  length position = 3 →
  length orientation = 3 ∨ length orientation = 4 →
  ∃ pose,
    merge_pose fromRPY [position; orientation] = Ok pose ∧
    length pose = 7 ∧ take 3 pose = position ∧
    (length orientation = 4 → pose = position ++ orientation) ∧
    py_suffix 7 (q_start ++ pose) = pose.
Proof.
  intros Hpos Hori.
  assert (length (_convert_orientation fromRPY orientation) = 4 ∧
          (length orientation = 4 →
           _convert_orientation fromRPY orientation = orientation))
    as [Hlen Hquat].
  { destruct Hori as [Hori|Hori].
    - destruct orientation as [|r [|pi [|y [|]]]]; simplify_eq/=.
      destruct (fromRPY r pi y) as [[[a b] c] d]. split; [done|lia].
    - destruct orientation as [|r [|pi [|y [|z [|]]]]]; simplify_eq/=.
      done. }
  exists (position ++ _convert_orientation fromRPY orientation).
  unfold merge_pose. simpl. rewrite app_nil_r. split_and!.
  - done.
  - rewrite length_app. lia.
  - by rewrite take_app_length' by done.
  - intros H4. by rewrite Hquat.
  - unfold py_suffix. rewrite !length_app.
    replace (length q_start
             + (length position
                + length (_convert_orientation fromRPY orientation)) - 7)
      with (length q_start) by lia.
    by rewrite drop_app_length.
Qed.

Lemma merge_pose_target_slice_witness :
  ∃ pose,
    merge_pose (λ _ _ _, (0, 0, 0, 1)%Q) [[1; 2; 3]; [0; 0; 0]]%Q = Ok pose ∧
    length pose = 7 ∧ take 3 pose = [1; 2; 3]%Q ∧
    (length [0; 0; 0]%Q = 4 → pose = [1; 2; 3]%Q ++ [0; 0; 0]%Q) ∧
    py_suffix 7 ([9; 9]%Q ++ pose) = pose.
Proof.
  apply (merge_pose_target_slice (λ _ _ _, (0, 0, 0, 1)%Q)
           [1; 2; 3]%Q [0; 0; 0]%Q [9; 9]%Q).
  - reflexivity.
  - left. reflexivity.
Defined.

(** * Properties of example_ur5_impedance.py *)

(** X21. With [get_meas_qvtau] of robot.py, which returns three values,
    the joystick callback never commands a motion: unpacking the result into
    four names raises, the bare [except] takes it for a joint out of bounds,
    and the velocity sample is set to zero, whatever the joystick axes say.
    With fewer than eight axes the callback raises [IndexError] before
    that. *)
Theorem control_from_joy_cb_zero (r : Robot) (joints_state : JointState)
    (axes : list Q) (max_rot_vel : Q) (to_world : list Q → list Q → list Q) :
  (8 ≤ length axes →
   control_from_joy_cb r joints_state axes max_rot_vel to_world
   = Ok (replicate 6 0%Q)) ∧
  (length axes < 8 →
   control_from_joy_cb r joints_state axes max_rot_vel to_world
   = Err IndexError).
Proof.
  split; intros Hlen.
  - destruct axes as [|a0 [|a1 [|a2 [|a3 [|a4 [|a5 [|a6 [|a7 axes]]]]]]]];
      simpl in Hlen; try lia.
    unfold control_from_joy_cb. cbn [py_getitem lookup list_lookup mbind
                                     result_bind].
    by destruct (get_meas_qvtau r joints_state false) as [[[q v] tau]|].
  - destruct axes as [|a0 [|a1 [|a2 [|a3 [|a4 [|a5 [|a6 [|a7 axes]]]]]]]];
      simpl in Hlen; try lia; done.
Qed.

Lemma control_from_joy_cb_zero_witness :
  control_from_joy_cb scenario2_robot (scenario2_reading (1 # 2))
    [1; 1; 1; 1; 1; 1; 1; 1]%Q (3 # 2) (λ _ vel, vel)
  = Ok (replicate 6 0%Q).
Proof.
  apply (proj1 (control_from_joy_cb_zero scenario2_robot
                  (scenario2_reading (1 # 2)) [1; 1; 1; 1; 1; 1; 1; 1]%Q
                  (3 # 2) (λ _ vel, vel))).
  simpl. lia.
Defined.

(** X22. The friction step of the force callback is a dead band: with a
    friction that is not negative, a component of the averaged wrench below
    the friction in magnitude gives 0, and any other is pulled towards 0 by
    the friction, keeping its sign and losing exactly the friction in
    magnitude. *)
Theorem res_fric_dead_band (fric avg : Q) :
  (0 <= fric)%Q →
  ((Qabs avg < fric)%Q → res_fric fric avg = 0%Q) ∧
  ((fric <= Qabs avg)%Q →
   (Qabs (res_fric fric avg) == Qabs avg - fric)%Q ∧
   (0 <= res_fric fric avg * avg)%Q).
Proof.
  intros Hfric. unfold res_fric. split.
  - intros Hlt. apply Qltb_true in Hlt. by rewrite Hlt.
  - intros Hle. apply Qltb_false in Hle as Hb. rewrite Hb. unfold np_sign.
    destruct (Qltb avg 0) eqn:Hneg.
    + apply Qltb_true in Hneg. rewrite (Qabs_neg avg) in * by lra.
      split; [rewrite Qabs_neg by lra; lra|nra].
    + apply Qltb_false in Hneg. destruct (Qltb 0 avg) eqn:Hpos.
      * apply Qltb_true in Hpos. rewrite (Qabs_pos avg) in * by lra.
        split; [rewrite Qabs_pos by lra; lra|nra].
      * apply Qltb_false in Hpos. rewrite (Qabs_pos avg) in * by lra.
        split; [rewrite Qabs_pos by lra; lra|nra].
Qed.

Lemma res_fric_dead_band_witness :
  ((Qabs 5 < 3)%Q → res_fric 3 5 = 0%Q) ∧
  ((3 <= Qabs 5)%Q →
   (Qabs (res_fric 3 5) == Qabs 5 - 3)%Q ∧ (0 <= res_fric 3 5 * 5)%Q).
Proof. apply (res_fric_dead_band 3 5). vm_compute. discriminate. Defined.

(** ** The ring buffer of the force filter *)

Lemma filter_step_Ok st wrist_f :
  filt_i st < length (filt_list st) →
  filter_step st wrist_f
  = Ok {| filt_list :=
            <[filt_i st:=force_div wrist_f FILT_WIN]> (filt_list st);
          filt_i := (filt_i st + 1) mod FILT_WIN;
          filt_avg :=
            force_add (force_sub (filt_avg st) (filt_list st !!! filt_i st))
              (force_div wrist_f FILT_WIN) |}.
Proof.
  intros Hi. unfold filter_step.
  rewrite py_getitem_total by done. simpl.
  unfold py_setitem. rewrite decide_True by done. simpl.
  unfold py_getitem. by rewrite list_lookup_insert_eq by done.
Qed.

Lemma filter_steps_snoc st samples wrist_f :
  filter_steps st (samples ++ [wrist_f])
  = st' ← filter_steps st samples; filter_step st' wrist_f.
Proof.
  revert st. induction samples as [|s samples IH]; intros st; simpl.
  - by destruct (filter_step st wrist_f).
  - destruct (filter_step st s) as [st'|]; simpl; [apply IH|done].
Qed.

Lemma mod_FILT_WIN_ne k n :
  k < n → n - k < FILT_WIN → k mod FILT_WIN ≠ n mod FILT_WIN.
Proof.
  unfold FILT_WIN. intros Hlt Hwin Heq.
  pose proof (Nat.Div0.div_mod k 100) as Hk.
  pose proof (Nat.Div0.div_mod n 100) as Hn.
  rewrite Heq in Hk. lia.
Qed.

(** X23. Starting from the filter as the script creates it, any number of
    force callbacks goes through without an exception; the buffer keeps its
    100 slots, the index is the number of callbacks modulo 100, and each of
    the last 100 wrenches, divided by 100, sits in the slot of its
    number modulo 100. *)
Theorem filter_ring_buffer (samples : list (list Q)) :
  ∃ st,
    filter_steps fts_filter_init samples = Ok st ∧
    length (filt_list st) = FILT_WIN ∧
    filt_i st = length samples mod FILT_WIN ∧
    ∀ k wrist_f,
      samples !! k = Some wrist_f → length samples - k ≤ FILT_WIN →
      filt_list st !! (k mod FILT_WIN) = Some (force_div wrist_f FILT_WIN).
Proof.
  induction samples as [|s samples IH] using rev_ind.
  { exists fts_filter_init. split_and!; [done..|]. by intros k w. }
  destruct IH as (st & Hrun & Hlen & Hi & Hslot).
  assert (filt_i st < length (filt_list st)) as Hlt.
  { rewrite Hi, Hlen. by apply Nat.mod_upper_bound. }
  rewrite filter_steps_snoc, Hrun. simpl. rewrite filter_step_Ok by done.
  eexists. split; [reflexivity|]. cbn [filt_list filt_i filt_avg].
  split_and!.
  - by rewrite length_insert.
  - rewrite Hi, length_app. cbn [length].
    by rewrite Nat.Div0.add_mod_idemp_l.
  - intros k w Hk Hwin. rewrite length_app in Hwin. cbn [length] in Hwin.
    apply lookup_app_Some in Hk as [Hk|[Hge Hk]].
    + pose proof (lookup_lt_Some _ _ _ Hk) as Hklt.
      rewrite list_lookup_insert_ne.
      * apply (Hslot k w Hk). lia.
      * rewrite Hi. intros Heq. symmetry in Heq. revert Heq.
        apply mod_FILT_WIN_ne; [done|lia].
    + destruct (k - length samples) as [|?] eqn:Hd; simplify_eq/=.
      replace k with (length samples) by lia.
      rewrite <- Hi. by apply list_lookup_insert_eq.
Qed.
